(** * grpc_server: the ifrit runner for a gRPC server

    A shallow embedding of [grpc_server/server.go]: the constructor
    [NewGRPCServer], which checks the shape of the registrar and of the
    handler through reflection, and the method [Run], which listens, serves
    on a goroutine of its own and waits for a signal or for the end of
    serving.

    The Go runtime and the libraries the package calls ([reflect], [log],
    [net], [grpc]) are modelled as far as the package observes them. *)

From Stdlib Require Import String List Bool Arith NArith Lia.
Import ListNotations.
Local Open Scope string_scope.
Local Open Scope list_scope.

Set Implicit Arguments.
Set Warnings "-register-all".

(* ================================================================= *)
(** ** The part of package [reflect] that the code uses *)

Module reflect.

(** [reflect.Kind], in the order of its declaration. *)
Inductive Kind : Set :=
| Invalid | Bool | Int | Int8 | Int16 | Int32 | Int64
| Uint | Uint8 | Uint16 | Uint32 | Uint64 | Uintptr
| Float32 | Float64 | Complex64 | Complex128
| Array | Chan | Func | Interface | Map | Ptr | Slice
| String | Struct | UnsafePointer.

Definition Kind_eq_dec (a b : Kind) : {a = b} + {a <> b}.
Proof. decide equality. Defined.

Definition Kind_eqb (a b : Kind) : bool :=
  if Kind_eq_dec a b then true else false.

(** The kinds of the types that are neither functions, interfaces nor
    pointers.  The package looks at such a type through its kind and its
    identity only. *)
Inductive PlainKind : Set :=
| PBool | PInt | PInt8 | PInt16 | PInt32 | PInt64
| PUint | PUint8 | PUint16 | PUint32 | PUint64 | PUintptr
| PFloat32 | PFloat64 | PComplex64 | PComplex128
| PArray | PChan | PMap | PSlice | PString | PStruct | PUnsafePointer.

Definition kind_of_plain (p : PlainKind) : Kind :=
  match p with
  | PBool => Bool | PInt => Int | PInt8 => Int8 | PInt16 => Int16
  | PInt32 => Int32 | PInt64 => Int64
  | PUint => Uint | PUint8 => Uint8 | PUint16 => Uint16
  | PUint32 => Uint32 | PUint64 => Uint64 | PUintptr => Uintptr
  | PFloat32 => Float32 | PFloat64 => Float64
  | PComplex64 => Complex64 | PComplex128 => Complex128
  | PArray => Array | PChan => Chan | PMap => Map | PSlice => Slice
  | PString => String | PStruct => Struct
  | PUnsafePointer => UnsafePointer
  end.

(** A method as the runtime's method tables hold it: its name and the
    identity of its signature (the canonical, package-qualified text of
    the function type).  Two methods match when both agree. *)
Definition Method : Set := (string * string)%type.

(** [reflect.Type]: the runtime's type descriptor.  Identical Go types
    have one descriptor, so [==] on [reflect.Type] is equality here.
    [name] is the package-qualified name of a defined type and the empty
    string for a type literal. *)
Inductive rtype : Set :=
| FuncType (name : string) (ins outs : list rtype) (variadic : bool)
| InterfaceType (name : string) (methods : list Method)
| PtrType (elem : rtype)
| PlainType (k : PlainKind) (name : string).

(** [Type.Kind]. *)
Definition Kind_of (t : rtype) : Kind :=
  match t with
  | FuncType _ _ _ _ => Func
  | InterfaceType _ _ => Interface
  | PtrType _ => Ptr
  | PlainType k _ => kind_of_plain k
  end.

Definition PlainKind_eqb (a b : PlainKind) : bool :=
  Kind_eqb (kind_of_plain a) (kind_of_plain b).

Definition Method_eqb (a b : Method) : bool :=
  String.eqb (fst a) (fst b) && String.eqb (snd a) (snd b).

Section ListEqb.
Variable A : Type.
Variable eqb : A -> A -> bool.

Fixpoint list_eqb (l1 l2 : list A) {struct l1} : bool :=
  match l1, l2 with
  | [], [] => true
  | x :: l1', y :: l2' => eqb x y && list_eqb l1' l2'
  | _, _ => false
  end.

End ListEqb.

(** Identity of type descriptors, the [==] and [!=] of [reflect.Type]. *)
Fixpoint rtype_eqb (a b : rtype) {struct a} : bool :=
  match a, b with
  | FuncType n1 i1 o1 v1, FuncType n2 i2 o2 v2 =>
      String.eqb n1 n2 && list_eqb rtype_eqb i1 i2
      && list_eqb rtype_eqb o1 o2 && Bool.eqb v1 v2
  | InterfaceType n1 m1, InterfaceType n2 m2 =>
      String.eqb n1 n2 && list_eqb Method_eqb m1 m2
  | PtrType e1, PtrType e2 => rtype_eqb e1 e2
  | PlainType k1 n1, PlainType k2 n2 =>
      PlainKind_eqb k1 k2 && String.eqb n1 n2
  | _, _ => false
  end.

(** An interface value ([interface{}]): nil, or a dynamic type with the
    data word.  The data word of a func or pointer is 0 when it is nil. *)
Inductive any : Set :=
| nil_any
| box (typ : rtype) (word : N).

(** [reflect.Value]; [zeroValue] is the zero Value, of kind [Invalid]. *)
Inductive Value : Set :=
| zeroValue
| mkValue (typ : rtype) (word : N).

(** [reflect.ValueOf]: [ValueOf(nil)] is the zero Value. *)
Definition ValueOf (i : any) : Value :=
  match i with
  | nil_any => zeroValue
  | box t w => mkValue t w
  end.

End reflect.

Import reflect.

(* ================================================================= *)
(** ** Values of the other packages *)

(** [error]: nil, or an error with its text. *)
Definition error : Set := option string.

(** [*tls.Config]: nil, or the address of a configuration. *)
Definition tls_Config_ptr : Set := option N.

(** [credentials.TransportCredentials], as built by [credentials.NewTLS]. *)
Inductive TransportCredentials : Set :=
| credentials_NewTLS (c : N).

(** [grpc.ServerOption], as built by [grpc.Creds]. *)
Inductive ServerOption : Set :=
| grpc_Creds (c : TransportCredentials).

(** [*grpc.Server]: where the server lives and the options it was made
    with. *)
Record Server : Set := mkServer {
  server_addr : N;
  server_opts : list ServerOption
}.

(** The type descriptor of [*grpc.Server]: what [reflect.TypeOf] returns
    for a nil pointer of that type. *)
Definition grpc_Server_ptr : rtype :=
  PtrType (PlainType PStruct "google.golang.org/grpc.Server").

(** [reflect.ValueOf(server)] for a [*grpc.Server]. *)
Definition ValueOf_Server (srv : Server) : Value :=
  mkValue grpc_Server_ptr (server_addr srv).

(** [net.Listener]: the handle of a bound listener; 0 is the nil
    listener that comes with an error. *)
Definition Listener : Set := N.

(** A channel handle: the nil channel, a channel that the caller made, or
    the n-th channel that this invocation of Run has made. *)
Inductive chan : Set :=
| nil_chan
| arg_chan (id : N)
| made_chan (n : N).

Definition chan_eqb (a b : chan) : bool :=
  match a, b with
  | nil_chan, nil_chan => true
  | arg_chan i, arg_chan j => N.eqb i j
  | made_chan i, made_chan j => N.eqb i j
  | _, _ => false
  end.

(** The struct of the package. *)
Record grpcServerRunner : Set := mkRunner {
  listenAddress : string;
  handler : any;
  serverRegistrar : any;
  tlsConfig : tls_Config_ptr
}.

(* ================================================================= *)
(** ** Panics and formatted messages *)

(** An operand of a format verb. *)
Inductive FmtArg : Set :=
| ArgKind (k : Kind)
| ArgInt (n : nat)
| ArgType (t : rtype).

(** The string [fmt.Sprintf(format, args...)], kept as its two parts. *)
Record Message : Set := fmt_Sprintf {
  msg_format : string;
  msg_args : list FmtArg
}.

(** What a goroutine can panic with. *)
Inductive PanicValue : Set :=
| ValueError (method : string) (k : Kind)
    (* [&reflect.ValueError{Method, Kind}] *)
| ReflectPanic (s : string)
    (* [panic("reflect: ...")] inside package reflect *)
| LogPanic (m : Message)
    (* the string that [log.Panicf] has written and panics with *)
| RuntimePanic (s : string)
    (* a run-time error of the channel operations *)
| CalleePanic (s : string).
    (* a panic that comes out of the called registrar *)

(* ================================================================= *)
(** ** Programs: the calls that reach outside the goroutine *)

(** The goroutine of lines 90-92: [errCh <- server.Serve(lis)]. *)
Inductive goroutine : Set :=
| serve_into (server : Server) (lis : Listener) (errCh : chan).

(** The communication a [select] completed with. *)
Inductive Selected : Set :=
| recv_signals
| recv_errCh (e : error).

(** An effect and the type of its answer. *)
Inductive Eff : Type -> Type :=
| log_Output (m : Message) : Eff unit
| net_Listen (network address : string) : Eff (Listener * error)%type
| grpc_NewServer (opts : list ServerOption) : Eff Server
| call_func (fn : Value) (args : list Value) : Eff (list Value)
| make_chan : Eff chan
| go_ (g : goroutine) : Eff unit
| close_ (c : chan) : Eff unit
| select_ (signals errCh : chan) : Eff Selected
| Server_GracefulStop (srv : Server) : Eff unit.

(** A program returns, panics, or performs an effect and goes on with its
    answer. *)
Inductive prog (A : Type) : Type :=
| Ret (a : A)
| Panic (v : PanicValue)
| Vis (X : Type) (e : Eff X) (k : X -> prog A).

Arguments Ret {A} a.
Arguments Panic {A} v.
Arguments Vis {A X} e k.

Fixpoint bind {A B : Type} (p : prog A) (f : A -> prog B) : prog B :=
  match p with
  | Ret a => f a
  | Panic v => Panic v
  | Vis e k => Vis e (fun x => bind (k x) f)
  end.

Definition trigger {X : Type} (e : Eff X) : prog X := Vis e Ret.

Declare Scope prog_scope.
Delimit Scope prog_scope with prog.
Notation "x <- p ;; q" := (bind p (fun x => q))
  (at level 61, p at next level, right associativity) : prog_scope.
Notation "' pat <- p ;; q" := (bind p (fun x => match x with pat => q end))
  (at level 61, pat pattern, p at next level, right associativity) : prog_scope.
Notation "p ;; q" := (bind p (fun _ => q))
  (at level 61, right associativity) : prog_scope.
Local Open Scope prog_scope.

(** [if cond { body }] where the body returns nothing. *)
Definition when (cond : bool) (body : prog unit) : prog unit :=
  if cond then body else Ret tt.

(** [log.Panicf]: formats, writes the line to the standard logger, panics
    with it. *)
Definition log_Panicf (format : string) (args : list FmtArg) : prog unit :=
  let s := fmt_Sprintf format args in
  trigger (log_Output s) ;; Panic (LogPanic s).

(* ================================================================= *)
(** ** The operations of [reflect] *)

(** [Value.Type]: panics on the zero Value. *)
Definition Value_Type (v : Value) : prog rtype :=
  match v with
  | zeroValue => Panic (ValueError "reflect.Value.Type" Invalid)
  | mkValue t _ => Ret t
  end.

(** [reflect.TypeOf]: the dynamic type, nil for a nil interface. *)
Definition TypeOf (i : any) : option rtype :=
  match i with
  | nil_any => None
  | box t _ => Some t
  end.

(** [Type.NumIn], [Type.NumOut], [Type.In]: panic off function types and
    out of range. *)
Definition Type_NumIn (t : rtype) : prog nat :=
  match t with
  | FuncType _ ins _ _ => Ret (length ins)
  | _ => Panic (ReflectPanic "reflect: NumIn of non-func type")
  end.

Definition Type_NumOut (t : rtype) : prog nat :=
  match t with
  | FuncType _ _ outs _ => Ret (length outs)
  | _ => Panic (ReflectPanic "reflect: NumOut of non-func type")
  end.

Definition Type_In (t : rtype) (i : nat) : prog rtype :=
  match t with
  | FuncType _ ins _ _ =>
      match nth_error ins i with
      | Some p => Ret p
      | None => Panic (RuntimePanic "index out of range")
      end
  | _ => Panic (ReflectPanic "reflect: In of non-func type")
  end.

(** [!=] between two [reflect.Type] values, either of which may be nil. *)
Definition Type_neq (a b : option rtype) : bool :=
  match a, b with
  | Some x, Some y => negb (rtype_eqb x y)
  | None, None => false
  | _, _ => true
  end.

Section MethodTables.

(** The method table the compiler emitted for each type that is not an
    interface (the exported methods of its method set). *)
Variable uncommon : rtype -> list Method.

(** The methods reflection finds on a type. *)
Definition methods_of (t : rtype) : list Method :=
  match t with
  | InterfaceType _ ms => ms
  | _ => uncommon t
  end.

(** [implements(T, V)] of package reflect: every method of the interface
    [T] is among the methods of [V]. *)
Definition implements (T V : rtype) : bool :=
  match T with
  | InterfaceType _ ms =>
      forallb (fun m => existsb (Method_eqb m) (methods_of V)) ms
  | _ => false
  end.

(** [Type.Implements]: panics when [u] is not an interface type. *)
Definition Type_Implements (t u : rtype) : prog bool :=
  if Kind_eqb (Kind_of u) Interface
  then Ret (implements u t)
  else Panic (ReflectPanic "reflect: non-interface type passed to Type.Implements").

(* ================================================================= *)
(** ** The constructor *)

Definition NewGRPCServer (listenAddress : string) (tlsConfig : tls_Config_ptr)
    (handler serverRegistrar : any) : prog grpcServerRunner :=
  let vServerRegistrar := ValueOf serverRegistrar in
  let vHandler := ValueOf handler in

  registrarType <- Value_Type vServerRegistrar ;;
  handlerType <- Value_Type vHandler ;;

  (* registrar type must be a func of a *grpc.Server and an X *)
  when (negb (Kind_eqb (Kind_of registrarType) Func))
    (log_Panicf "NewGRPCServer: `serverRegistrar` should be %s but is %s"
       [ArgKind Func; ArgKind (Kind_of registrarType)]) ;;
  numIn <- Type_NumIn registrarType ;;
  when (negb (Nat.eqb numIn 2))
    (log_Panicf "NewGRPCServer: `serverRegistrar` should have 2 parameters but it has %d parameters"
       [ArgInt numIn]) ;;
  numOut <- Type_NumOut registrarType ;;
  when (negb (Nat.eqb numOut 0))
    (log_Panicf "NewGRPCServer: `serverRegistrar` should return no value but it returns %d values"
       [ArgInt numOut]) ;;

  (* registrar's first parameter type must be *grpc.Server *)
  in0 <- Type_In registrarType 0 ;;
  when (Type_neq (TypeOf (box grpc_Server_ptr 0)) (Some in0))
    (log_Panicf "NewGRPCServer: type of `serverRegistrar`'s first parameter must be `*grpc.Server` but is %s"
       [ArgType in0]) ;;

  (* registrar's second parameter type must be implemented by handler type *)
  in1 <- Type_In registrarType 1 ;;
  ok <- Type_Implements handlerType in1 ;;
  when (negb ok)
    (log_Panicf "NewGRPCServer: type of `serverRegistrar`'s second parameter %s is not implemented by `handler` type %s"
       [ArgType in1; ArgType handlerType]) ;;

  Ret {| listenAddress := listenAddress;
         handler := handler;
         serverRegistrar := serverRegistrar;
         tlsConfig := tlsConfig |}.

End MethodTables.

(** [Value.Call]: panics on the zero Value, on a value that is not a
    function and on a nil function; otherwise the function runs. *)
Definition Value_Call (fn : Value) (args : list Value) : prog (list Value) :=
  match fn with
  | zeroValue => Panic (ValueError "reflect.Value.Call" Invalid)
  | mkValue t w =>
      if negb (Kind_eqb (Kind_of t) Func)
      then Panic (ValueError "reflect.Value.Call" (Kind_of t))
      else if N.eqb w 0
      then Panic (ReflectPanic "reflect.Value.Call: call of nil function")
      else trigger (call_func fn args)
  end.

(* ================================================================= *)
(** ** The method Run *)

Definition Run (s : grpcServerRunner) (signals ready : chan) : prog error :=
  let vServerRegistrar := ValueOf (serverRegistrar s) in
  let vHandler := ValueOf (handler s) in

  '(lis, err) <- trigger (net_Listen "tcp" (listenAddress s)) ;;
  match err with
  | Some _ => Ret err
  | None =>
      let opts := [] in
      let opts :=
        match tlsConfig s with
        | Some c => opts ++ [grpc_Creds (credentials_NewTLS c)]
        | None => opts
        end in
      server <- trigger (grpc_NewServer opts) ;;
      let args := [ValueOf_Server server; vHandler] in
      Value_Call vServerRegistrar args ;;

      errCh <- trigger make_chan ;;
      trigger (go_ (serve_into server lis errCh)) ;;

      trigger (close_ ready) ;;

      r <- trigger (select_ signals errCh) ;;
      let err :=
        match r with
        | recv_signals => err
        | recv_errCh e => e
        end in

      trigger (Server_GracefulStop server) ;;
      Ret err
  end.

(* ================================================================= *)
(** ** The machine: Run's goroutine, the serving goroutine, the outside *)

(** What happens, in the order it happens. *)
Inductive Event : Type :=
| EvLog (m : Message)
| EvListen (network address : string)
| EvNewServer (opts : list ServerOption)
| EvCall (fn : Value) (args : list Value)
| EvMakeChan (c : chan)
| EvGo (g : goroutine)
| EvClose (c : chan)
| EvWait
    (* Run's goroutine enters the select *)
| EvSignal
    (* outside: a receive on the signals channel becomes possible *)
| EvServeReturn (e : error)
    (* serving goroutine: Serve has returned e, which it now sends *)
| EvSelected (r : Selected)
    (* the select completes with this communication *)
| EvGracefulStop (srv : Server)
| EvReturn (e : error)
| EvPanic (v : PanicValue).

(** Run's goroutine. *)
Inductive Thread : Type :=
| Running (p : prog error)
| Parked (c1 c2 : chan) (k : Selected -> prog error)
    (* blocked in a select on c1 and c2, none of which can proceed *)
| Returned (e : error)
| Panicked (v : PanicValue).

(** The serving goroutine. *)
Inductive Serving : Set :=
| NotStarted
| InServe (ch : chan)
    (* inside [server.Serve(lis)], to send its result on ch *)
| Sending (ch : chan) (e : error)
    (* blocked in the send of e on the unbuffered ch *)
| Delivered.
    (* the send has completed; the goroutine has ended *)

Record State : Type := mkState {
  main : Thread;
  bg : Serving;
  sig_ready : bool;      (* a receive on the signals channel can proceed *)
  closed : list chan;    (* the channels that are closed *)
  made : N;              (* how many channels this invocation has made *)
  trace : list Event
}.

Definition emit (ev : Event) (st : State) : State :=
  mkState (main st) (bg st) (sig_ready st) (closed st) (made st)
          (trace st ++ [ev]).

Definition set_main (m : Thread) (st : State) : State :=
  mkState m (bg st) (sig_ready st) (closed st) (made st) (trace st).

Definition set_bg (b : Serving) (st : State) : State :=
  mkState (main st) b (sig_ready st) (closed st) (made st) (trace st).

Definition set_sig_ready (b : bool) (st : State) : State :=
  mkState (main st) (bg st) b (closed st) (made st) (trace st).

Definition set_closed (l : list chan) (st : State) : State :=
  mkState (main st) (bg st) (sig_ready st) l (made st) (trace st).

Definition set_made (n : N) (st : State) : State :=
  mkState (main st) (bg st) (sig_ready st) (closed st) n (trace st).

(** What the outside answers. *)
Record World : Type := mkWorld {
  listen_result : Listener * error;
    (* what [net.Listen] returns *)
  new_server_addr : N;
    (* where [grpc.NewServer] puts the server *)
  call_result : PanicValue + list Value;
    (* what running the registrar does: it panics or it returns *)
  select_pick : bool
    (* the case the runtime picks when both can proceed: true for the
       first *)
}.

(** The select has completed with r: the goroutine goes on. *)
Definition resolve (r : Selected) (k : Selected -> prog error) (st : State) : State :=
  set_main (Running (k r)) (emit (EvSelected r) st).

Definition panic_with (v : PanicValue) (st : State) : State :=
  set_main (Panicked v) (emit (EvPanic v) st).

Section Machine.

Variable w : World.
(** The channel that Run was given as signals. *)
Variable signals : chan.

(** The value the send on c offers, if a goroutine is blocked in it. *)
Definition offered (c : chan) (st : State) : option error :=
  match bg st with
  | Sending ch e => if chan_eqb c ch then Some e else None
  | _ => None
  end.

(** A receive on c from the outside can proceed: a signal is there to be
    received on it, or it is a closed channel, from which a receive
    proceeds at once, with the zero value (the nil channel is never
    closed: nothing is ever received from it). *)
Definition receivable (c : chan) (st : State) : bool :=
  (sig_ready st && chan_eqb c signals)
  || match c with
     | nil_chan => false
     | _ => existsb (chan_eqb c) (closed st)
     end.

(** Run's goroutine performs the effect e and goes on with k. *)
Definition perform {X : Type} (e : Eff X) : (X -> prog error) -> State -> State :=
  match e in Eff X return (X -> prog error) -> State -> State with
  | log_Output m => fun k st =>
      set_main (Running (k tt)) (emit (EvLog m) st)
  | net_Listen network address => fun k st =>
      set_main (Running (k (listen_result w))) (emit (EvListen network address) st)
  | grpc_NewServer opts => fun k st =>
      set_main (Running (k (mkServer (new_server_addr w) opts)))
               (emit (EvNewServer opts) st)
  | call_func fn args => fun k st =>
      match call_result w with
      | inl v => panic_with v (emit (EvCall fn args) st)
      | inr rs => set_main (Running (k rs)) (emit (EvCall fn args) st)
      end
  | make_chan => fun k st =>
      let c := made_chan (made st) in
      set_main (Running (k c)) (emit (EvMakeChan c) (set_made (N.succ (made st)) st))
  | go_ g => fun k st =>
      match g with
      | serve_into _ _ ch =>
          set_main (Running (k tt)) (emit (EvGo g) (set_bg (InServe ch) st))
      end
  | close_ c => fun k st =>
      match c with
      | nil_chan => panic_with (RuntimePanic "close of nil channel") st
      | _ =>
          if existsb (chan_eqb c) (closed st)
          then panic_with (RuntimePanic "close of closed channel") st
          else set_main (Running (k tt))
                 (emit (EvClose c) (set_closed (c :: closed st) st))
      end
  | select_ c1 c2 => fun k st =>
      (* Go's select: when one or more of the communications can proceed,
         one of them is chosen, by a pseudo-random pick of the runtime;
         when none can, the goroutine blocks until one can. *)
      let st := emit EvWait st in
      match receivable c1 st, offered c2 st with
      | true, Some e =>
          if select_pick w
          then resolve recv_signals k st
          else resolve (recv_errCh e) k (set_bg Delivered st)
      | true, None => resolve recv_signals k st
      | false, Some e => resolve (recv_errCh e) k (set_bg Delivered st)
      | false, None => set_main (Parked c1 c2 k) st
      end
  | Server_GracefulStop srv => fun k st =>
      set_main (Running (k tt)) (emit (EvGracefulStop srv) st)
  end.

(** One step of Run's goroutine. *)
Definition main_step (st : State) : State :=
  match main st with
  | Running (Ret e) => set_main (Returned e) (emit (EvReturn e) st)
  | Running (Panic v) => panic_with v st
  | Running (Vis e k) => perform e k st
  | _ => st
  end.

(** Outside: a receive on signals becomes possible (a value is sent, or
    the channel is closed).  A select parked on that channel completes at
    once. *)
Definition signal_arrives (st : State) : State :=
  let st := emit EvSignal (set_sig_ready true st) in
  match main st with
  | Parked c1 c2 k =>
      if chan_eqb c1 signals then resolve recv_signals k st else st
  | _ => st
  end.

(** Nothing arrives on a nil channel. *)
Definition signal_step (st : State) : State :=
  match signals with
  | nil_chan => st
  | _ => signal_arrives st
  end.

(** Serving goroutine: Serve returns e and the goroutine sends it.  A
    select parked on that channel takes it at once; otherwise the send
    blocks. *)
Definition serve_step (e : error) (st : State) : State :=
  match bg st with
  | InServe ch =>
      let st := emit (EvServeReturn e) st in
      match main st with
      | Parked c1 c2 k =>
          if chan_eqb c2 ch
          then resolve (recv_errCh e) k (set_bg Delivered st)
          else set_bg (Sending ch e) st
      | _ => set_bg (Sending ch e) st
      end
  | _ => st
  end.

(** Who moves next. *)
Inductive Tick : Set :=
| TMain
| TSignal
| TServe (e : error).

Definition step (st : State) (t : Tick) : State :=
  match t with
  | TMain => main_step st
  | TSignal => signal_step st
  | TServe e => serve_step e st
  end.

(** A schedule, run from a state. *)
Definition exec (sched : list Tick) (st : State) : State :=
  fold_left step sched st.

End Machine.

(** The state in which [s.Run(signals, ready)] is called; closed0 are the
    channels already closed then (channels of the caller: those that Run
    makes do not exist yet).  No signal is there yet; a signals channel
    that is closed is among closed0. *)
Definition init (s : grpcServerRunner) (signals ready : chan)
    (closed0 : list chan) : State :=
  mkState (Running (Run s signals ready)) NotStarted false closed0 0 [].

(** The whole run of one invocation under a schedule. *)
Definition run (w : World) (s : grpcServerRunner) (signals ready : chan)
    (closed0 : list chan) (sched : list Tick) : State :=
  exec w signals sched (init s signals ready closed0).

(* ================================================================= *)
(** ** What the statements below speak about *)

(** The program panics, and all it did before was to write log lines: it
    listened on nothing, made no server, touched no channel. *)
Fixpoint aborts_offline {A : Type} (p : prog A) : bool :=
  match p with
  | Ret _ => false
  | Panic _ => true
  | Vis e k =>
      match e in Eff X return (X -> prog A) -> bool with
      | log_Output _ => fun k' => aborts_offline (k' tt)
      | _ => fun _ => false
      end k
  end.

(** The log lines a program writes before it performs any other effect. *)
Fixpoint logged {A : Type} (p : prog A) : list Message :=
  match p with
  | Vis e k =>
      match e in Eff X return (X -> prog A) -> list Message with
      | log_Output m => fun k' => m :: logged (k' tt)
      | _ => fun _ => []
      end k
  | _ => []
  end.

Section Preconditions.

Variable uncommon : rtype -> list Method.

(** The four preconditions of the constructor, in the words of the
    specification. *)

(** 1. The registrar is a function value. *)
Definition registrar_is_function (registrar : any) : Prop :=
  exists t w, registrar = box t w /\ Kind_of t = Func.

(** 2. The registrar has exactly two parameters and no result. *)
Definition registrar_two_in_zero_out (registrar : any) : Prop :=
  exists name ins outs variadic w,
    registrar = box (FuncType name ins outs variadic) w
    /\ length ins = 2 /\ length outs = 0.

(** 3. The type of the registrar's first parameter is [*grpc.Server]. *)
Definition first_parameter_is_server (registrar : any) : Prop :=
  exists name ins outs variadic w,
    registrar = box (FuncType name ins outs variadic) w
    /\ nth_error ins 0 = Some grpc_Server_ptr.

(** 4. The registrar's second parameter is an interface, and the type of
    the handler has every method of it. *)
Definition handler_implements_second_parameter (handler registrar : any) : Prop :=
  exists name ins outs variadic w ht hw iname ms,
    registrar = box (FuncType name ins outs variadic) w
    /\ handler = box ht hw
    /\ nth_error ins 1 = Some (InterfaceType iname ms)
    /\ forall m, In m ms -> In m (methods_of uncommon ht).

Definition preconditions (handler registrar : any) : Prop :=
  registrar_is_function registrar
  /\ registrar_two_in_zero_out registrar
  /\ first_parameter_is_server registrar
  /\ handler_implements_second_parameter handler registrar.

(** Some precondition of the constructor is violated. *)
Definition violated (handler registrar : any) : Prop :=
  ~ registrar_is_function registrar
  \/ ~ registrar_two_in_zero_out registrar
  \/ ~ first_parameter_is_server registrar
  \/ ~ handler_implements_second_parameter handler registrar.

End Preconditions.

(* ================================================================= *)
(** ** Reading a trace *)

(** The events that come from outside Run's goroutine. *)
Definition is_outside (ev : Event) : bool :=
  match ev with
  | EvSignal | EvServeReturn _ => true
  | _ => false
  end.

(** The events of Run's own goroutine, in their order. *)
Definition own_events (tr : list Event) : list Event :=
  filter (fun ev => negb (is_outside ev)) tr.

(** The errors with which Serve has returned, in their order. *)
Fixpoint serve_returns (tr : list Event) : list error :=
  match tr with
  | [] => []
  | EvServeReturn e :: tr' => e :: serve_returns tr'
  | _ :: tr' => serve_returns tr'
  end.

(** [a] happens before [b]. *)
Definition before (a b : Event) (tr : list Event) : Prop :=
  exists l1 l2 l3, tr = l1 ++ a :: l2 ++ b :: l3.

Definition is_selected (ev : Event) : bool :=
  match ev with EvSelected _ => true | _ => false end.

Definition is_received_err (ev : Event) : bool :=
  match ev with EvSelected (recv_errCh _) => true | _ => false end.

Definition is_serve_return (ev : Event) : bool :=
  match ev with EvServeReturn _ => true | _ => false end.

Definition is_graceful_stop (ev : Event) : bool :=
  match ev with EvGracefulStop _ => true | _ => false end.

Definition is_return (ev : Event) : bool :=
  match ev with EvReturn _ => true | _ => false end.

Definition is_close (ev : Event) : bool :=
  match ev with EvClose _ => true | _ => false end.

Definition is_go (ev : Event) : bool :=
  match ev with EvGo _ => true | _ => false end.

Definition is_new_server (ev : Event) : bool :=
  match ev with EvNewServer _ => true | _ => false end.

Definition is_listen (ev : Event) : bool :=
  match ev with EvListen _ _ => true | _ => false end.

Definition is_call (ev : Event) : bool :=
  match ev with EvCall _ _ => true | _ => false end.

(** How often an event of a sort occurs. *)
Definition count (f : Event -> bool) (tr : list Event) : nat :=
  length (filter f tr).

(** The error Run returns after the select has completed with [r]: the
    variable [err] is nil since the listen, and only the receive from
    errCh assigns it. *)
Definition err_of (r : Selected) : error :=
  match r with
  | recv_signals => None
  | recv_errCh e => e
  end.

(** The server options lines 81-84 build. *)
Definition server_options (s : grpcServerRunner) : list ServerOption :=
  match tlsConfig s with
  | Some c => [grpc_Creds (credentials_NewTLS c)]
  | None => []
  end.

(** The signals channel is closed when the select runs: it is not nil, and
    it is among the channels closed by then, which are those closed at the
    call and ready. *)
Definition signals_closed (signals ready : chan) (closed0 : list chan) : bool :=
  match signals with
  | nil_chan => false
  | _ => existsb (chan_eqb signals) (ready :: closed0)
  end.

(** What was available when a select completed with [r], [pre] being the
    trace up to then and [sc] telling whether the signals channel is
    closed: the communication it took could proceed, and the other one
    could not, or the runtime's pick went against it.  A receive from
    signals can proceed when a signal has come or the channel is closed. *)
Definition sel_ok (w : World) (sc : bool) (pre : list Event) (r : Selected) : Prop :=
  match r with
  | recv_signals =>
      (In EvSignal pre \/ sc = true)
      /\ (serve_returns pre = [] \/ select_pick w = true)
  | recv_errCh e =>
      serve_returns pre = [e]
      /\ ((~ In EvSignal pre /\ sc = false) \/ select_pick w = false)
  end.

(* ================================================================= *)
(** ** The program points of Run *)

Section Points.

Variable s : grpcServerRunner.
Variables signals ready : chan.

(** Lines 103-104. *)
Definition rest_L103 (server : Server) (err : error) : prog error :=
  trigger (Server_GracefulStop server) ;; Ret err.

(** After the select, which completed with [r]. *)
Definition rest_selected (server : Server) (r : Selected) : prog error :=
  rest_L103 server
    match r with
    | recv_signals => None
    | recv_errCh e => e
    end.

(** Line 96 on. *)
Definition rest_L96 (server : Server) (errCh : chan) : prog error :=
  r <- trigger (select_ signals errCh) ;; rest_selected server r.

(** Line 94 on. *)
Definition rest_L94 (server : Server) (errCh : chan) : prog error :=
  trigger (close_ ready) ;; rest_L96 server errCh.

(** Line 90 on. *)
Definition rest_L90 (server : Server) (lis : Listener) (errCh : chan) : prog error :=
  trigger (go_ (serve_into server lis errCh)) ;; rest_L94 server errCh.

(** Line 89 on. *)
Definition rest_L89 (server : Server) (lis : Listener) : prog error :=
  errCh <- trigger make_chan ;; rest_L90 server lis errCh.

(** Line 87 on. *)
Definition rest_L87 (server : Server) (lis : Listener) : prog error :=
  Value_Call (ValueOf (serverRegistrar s))
    [ValueOf_Server server; ValueOf (handler s)] ;;
  rest_L89 server lis.

(** Line 81 on. *)
Definition rest_L81 (lis : Listener) : prog error :=
  server <- trigger (grpc_NewServer (server_options s)) ;; rest_L87 server lis.

Variable w : World.

Definition the_server : Server := mkServer (new_server_addr w) (server_options s).
Definition the_listener : Listener := fst (listen_result w).
Definition the_errCh : chan := made_chan 0.

Definition the_listen : Event := EvListen "tcp" (listenAddress s).
Definition the_new_server : Event := EvNewServer (server_options s).
Definition the_call : Event :=
  EvCall (ValueOf (serverRegistrar s))
    [ValueOf_Server the_server; ValueOf (handler s)].
Definition the_make_chan : Event := EvMakeChan the_errCh.
Definition the_go : Event := EvGo (serve_into the_server the_listener the_errCh).
Definition the_close : Event := EvClose ready.
Definition the_stop : Event := EvGracefulStop the_server.

(** Where Run's goroutine stands. *)
Inductive Point : Type :=
| AtListen
| AtReturnErr (e : string)
| DoneErr (e : string)
| AtNewServer
| AtCall
| AtMakeChan
| AtGo
| AtClose
| AtSelect
| InSelect
| AtStop (r : Selected)
| AtReturn (r : Selected)
| Done (r : Selected)
| DeadCall (v : PanicValue)
| DeadCallee (v : PanicValue)
| DeadClose (v : PanicValue).

Definition thread_at (p : Point) : Thread :=
  match p with
  | AtListen => Running (Run s signals ready)
  | AtReturnErr e => Running (Ret (Some e))
  | DoneErr e => Returned (Some e)
  | AtNewServer => Running (rest_L81 the_listener)
  | AtCall => Running (rest_L87 the_server the_listener)
  | AtMakeChan => Running (rest_L89 the_server the_listener)
  | AtGo => Running (rest_L90 the_server the_listener the_errCh)
  | AtClose => Running (rest_L94 the_server the_errCh)
  | AtSelect => Running (rest_L96 the_server the_errCh)
  | InSelect => Parked signals the_errCh (rest_selected the_server)
  | AtStop r => Running (rest_selected the_server r)
  | AtReturn r => Running (Ret (err_of r))
  | Done r => Returned (err_of r)
  | DeadCall v | DeadCallee v | DeadClose v => Panicked v
  end.

(** The events of Run's goroutine up to a point. *)
Definition own_at (p : Point) : list Event :=
  match p with
  | AtListen => []
  | AtReturnErr _ => [the_listen]
  | DoneErr e => [the_listen; EvReturn (Some e)]
  | AtNewServer => [the_listen]
  | AtCall => [the_listen; the_new_server]
  | AtMakeChan => [the_listen; the_new_server; the_call]
  | AtGo => [the_listen; the_new_server; the_call; the_make_chan]
  | AtClose => [the_listen; the_new_server; the_call; the_make_chan; the_go]
  | AtSelect =>
      [the_listen; the_new_server; the_call; the_make_chan; the_go; the_close]
  | InSelect =>
      [the_listen; the_new_server; the_call; the_make_chan; the_go; the_close;
       EvWait]
  | AtStop r =>
      [the_listen; the_new_server; the_call; the_make_chan; the_go; the_close;
       EvWait; EvSelected r]
  | AtReturn r =>
      [the_listen; the_new_server; the_call; the_make_chan; the_go; the_close;
       EvWait; EvSelected r; the_stop]
  | Done r =>
      [the_listen; the_new_server; the_call; the_make_chan; the_go; the_close;
       EvWait; EvSelected r; the_stop; EvReturn (err_of r)]
  | DeadCall v => [the_listen; the_new_server; EvPanic v]
  | DeadCallee v => [the_listen; the_new_server; the_call; EvPanic v]
  | DeadClose v =>
      [the_listen; the_new_server; the_call; the_make_chan; the_go; EvPanic v]
  end.

(** The listen had the outcome that leads to the point. *)
Definition listen_at (p : Point) : Prop :=
  match p with
  | AtListen => True
  | AtReturnErr e | DoneErr e => snd (listen_result w) = Some e
  | _ => snd (listen_result w) = None
  end.

(** The serving goroutine, as far as the point tells. *)
Definition bg_at (p : Point) (st : State) : Prop :=
  match p with
  | AtListen | AtReturnErr _ | DoneErr _ | AtNewServer | AtCall | AtMakeChan
  | AtGo | DeadCall _ | DeadCallee _ =>
      bg st = NotStarted
  | AtClose | AtSelect | DeadClose _ =>
      bg st = InServe the_errCh \/ exists e, bg st = Sending the_errCh e
  | InSelect =>
      bg st = InServe the_errCh /\ sig_ready st = false
  | AtStop r | AtReturn r | Done r =>
      match r with
      | recv_signals =>
          bg st = InServe the_errCh \/ exists e, bg st = Sending the_errCh e
      | recv_errCh _ => bg st = Delivered
      end
  end.

Variable closed0 : list chan.

Definition closed_at (p : Point) : list chan :=
  match p with
  | AtSelect | InSelect | AtStop _ | AtReturn _ | Done _ => ready :: closed0
  | _ => closed0
  end.

Definition made_at (p : Point) : N :=
  match p with
  | AtListen | AtReturnErr _ | DoneErr _ | AtNewServer | AtCall | AtMakeChan
  | DeadCall _ | DeadCallee _ => 0
  | _ => 1
  end.

(** The serving goroutine against the trace. *)
Definition bg_trace (st : State) : Prop :=
  match bg st with
  | NotStarted | InServe _ => serve_returns (trace st) = []
  | Sending _ e => serve_returns (trace st) = [e]
  | Delivered => exists e, serve_returns (trace st) = [e]
  end.

(** Every select in the trace completed as [sel_ok] says. *)
Definition sel_all (tr : list Event) : Prop :=
  forall pre r post, tr = pre ++ EvSelected r :: post ->
    sel_ok w (signals_closed signals ready closed0) pre r.

(** Run's goroutine is parked in the select only when the signals channel
    is not closed. *)
Definition park_at (p : Point) : Prop :=
  match p with
  | InSelect => signals_closed signals ready closed0 = false
  | _ => True
  end.

(** The invariant of the machine. *)
Definition at_point (p : Point) (st : State) : Prop :=
  main st = thread_at p
  /\ own_events (trace st) = own_at p
  /\ listen_at p
  /\ bg_at p st
  /\ closed st = closed_at p
  /\ made st = made_at p
  /\ park_at p
  /\ (sig_ready st = true <-> In EvSignal (trace st))
  /\ bg_trace st
  /\ sel_all (trace st).

Definition Inv (st : State) : Prop := exists p, at_point p st.

End Points.

(** The steps Run's goroutine takes in a schedule. *)
Definition main_ticks (sched : list Tick) : nat :=
  length (filter (fun t => match t with TMain => true | _ => false end) sched).

(* ================================================================= *)
(** ** A service, and runs of it *)

(** The interface and the registrar that protoc generates for the Greeter
    service, and a handler for it. *)
Definition SayHello : Method :=
  ("SayHello",
   "func(context.Context, *helloworld.HelloRequest) (*helloworld.HelloReply, error)").

Definition GreeterServer : rtype :=
  InterfaceType "helloworld.GreeterServer" [SayHello].

Definition greeter : rtype := PtrType (PlainType PStruct "main.server").

Definition RegisterGreeterServer : rtype :=
  FuncType "" [grpc_Server_ptr; GreeterServer] [] false.

(** The method tables of the program: only the handler has methods. *)
Definition greeter_tables (t : rtype) : list Method :=
  if rtype_eqb t greeter then [SayHello] else [].

Definition the_handler : any := box greeter 4096.
Definition the_registrar : any := box RegisterGreeterServer 8192.

Definition greeter_runner : grpcServerRunner :=
  mkRunner "127.0.0.1:50051" the_handler the_registrar None.

Definition sig_chan : chan := arg_chan 1.
Definition ready_chan : chan := arg_chan 2.

(** The listen succeeds and the registrar returns; when both cases of the
    select can proceed the runtime picks the first, or the second. *)
Definition world_pick_signals : World := mkWorld (7%N, None) 900 (inr []) true.
Definition world_pick_errCh : World := mkWorld (7%N, None) 900 (inr []) false.

(** The address is in use. *)
Definition world_bind_fails : World :=
  mkWorld (0%N, Some "listen tcp 127.0.0.1:50051: bind: address already in use")
          900 (inr []) true.

Definition closed_listener : error := Some "use of closed network connection".

(** Run's goroutine goes from the call up to the select. *)
Definition up_to_select : list Tick :=
  [TMain; TMain; TMain; TMain; TMain; TMain; TMain].

(** It goes from the call through the go statement. *)
Definition through_go : list Tick := [TMain; TMain; TMain; TMain; TMain].

(* ================================================================= *)
(** ** Where the next step leads, and what a point tells of the way *)

Section Successors.

Variable s : grpcServerRunner.
Variables signals ready : chan.
Variable w : World.
Variable closed0 : list chan.

(** The call of the registrar, as line 87 makes it. *)
Definition the_Call : prog (list Value) :=
  Value_Call (ValueOf (serverRegistrar s))
    [ValueOf_Server (the_server s w); ValueOf (handler s)].

(** The point Run's goroutine reaches with its next step. *)
Definition next_point (p : Point) (st : State) : Point :=
  match p with
  | AtListen =>
      match snd (listen_result w) with
      | Some e => AtReturnErr e
      | None => AtNewServer
      end
  | AtReturnErr e => DoneErr e
  | AtNewServer => AtCall
  | AtCall =>
      match the_Call with
      | Panic v => DeadCall v
      | _ =>
          match call_result w with
          | inl v => DeadCallee v
          | inr _ => AtMakeChan
          end
      end
  | AtMakeChan => AtGo
  | AtGo => AtClose
  | AtClose =>
      match ready with
      | nil_chan => DeadClose (RuntimePanic "close of nil channel")
      | _ =>
          if existsb (chan_eqb ready) closed0
          then DeadClose (RuntimePanic "close of closed channel")
          else AtSelect
      end
  | AtSelect =>
      match sig_ready st || signals_closed signals ready closed0, bg st with
      | true, Sending _ e =>
          if select_pick w then AtStop recv_signals else AtStop (recv_errCh e)
      | true, _ => AtStop recv_signals
      | false, Sending _ e => AtStop (recv_errCh e)
      | false, _ => InSelect
      end
  | AtStop r => AtReturn r
  | AtReturn r => Done r
  | _ => p
  end.

(** The point after a tick: from outside, only a parked select is moved. *)
Definition point_after (t : Tick) (p : Point) (st : State) : Point :=
  match t with
  | TMain => next_point p st
  | TSignal =>
      match p, signals with
      | InSelect, nil_chan => InSelect
      | InSelect, _ => AtStop recv_signals
      | _, _ => p
      end
  | TServe e =>
      match p with
      | InSelect => AtStop (recv_errCh e)
      | _ => p
      end
  end.

(** The registrar is a function that is not nil: the reflect call calls
    it. *)
Definition registrar_called : Prop :=
  the_Call
  = trigger (call_func (ValueOf (serverRegistrar s))
               [ValueOf_Server (the_server s w); ValueOf (handler s)]).

(** The registrar is called, and it returns. *)
Definition registrar_returns : Prop :=
  registrar_called /\ exists rs, call_result w = inr rs.

(** The ready channel can be closed: it is not nil and not closed yet. *)
Definition ready_open : Prop :=
  ready <> nil_chan /\ existsb (chan_eqb ready) closed0 = false.

(** What had to hold for Run's goroutine to come to a point. *)
Definition path_ok (p : Point) : Prop :=
  match p with
  | AtListen | AtReturnErr _ | DoneErr _ | AtNewServer | AtCall => True
  | DeadCall v => the_Call = Panic v
  | DeadCallee v => registrar_called /\ call_result w = inl v
  | AtMakeChan | AtGo | AtClose => registrar_returns
  | DeadClose v =>
      registrar_returns
      /\ ((ready = nil_chan /\ v = RuntimePanic "close of nil channel")
          \/ (ready <> nil_chan
              /\ existsb (chan_eqb ready) closed0 = true
              /\ v = RuntimePanic "close of closed channel"))
  | AtSelect | InSelect | AtStop _ | AtReturn _ | Done _ =>
      registrar_returns /\ ready_open
  end.

(** The steps Run's goroutine has taken when it stands at a point before
    the select (at the select: six). *)
Definition depth (p : Point) : option nat :=
  match p with
  | AtListen => Some 0
  | AtReturnErr _ | AtNewServer => Some 1
  | AtCall => Some 2
  | AtMakeChan => Some 3
  | AtGo => Some 4
  | AtClose => Some 5
  | AtSelect => Some 6
  | _ => None
  end.

End Successors.

(** What a program does as long as it only writes log lines: the lines,
    and the panic or the result it ends with; [None] when it performs
    another effect. *)
Fixpoint offline {A : Type} (p : prog A) : option (list Message * (PanicValue + A)) :=
  match p with
  | Ret a => Some ([], inr a)
  | Panic v => Some ([], inl v)
  | Vis e k =>
      match e in Eff X return (X -> prog A) -> option (list Message * (PanicValue + A)) with
      | log_Output m => fun k' =>
          match offline (k' tt) with
          | Some (ms, r) => Some (m :: ms, r)
          | None => None
          end
      | _ => fun _ => None
      end k
  end.


(** Something is there for the select: a signal has come, or Serve has
    returned. *)
Definition armed (tr : list Event) : Prop :=
  In EvSignal tr \/ serve_returns tr <> [].

(** Something is there for the select, or the signals channel is closed,
    so that a receive from it proceeds without a signal. *)
Definition select_can_proceed (sc : bool) (tr : list Event) : Prop :=
  armed tr \/ sc = true.

(** The steps Run's goroutine has yet to take to its return, on the way
    through the select. *)
Definition steps_left (p : Point) : option nat :=
  match p with
  | AtListen => Some 9
  | AtNewServer => Some 8
  | AtCall => Some 7
  | AtMakeChan => Some 6
  | AtGo => Some 5
  | AtClose => Some 4
  | AtSelect => Some 3
  | AtStop _ => Some 2
  | AtReturn _ => Some 1
  | Done _ => Some 0
  | _ => None
  end.

(** Run's goroutine goes from the call up to the close of ready. *)
Definition up_to_close : list Tick := [TMain; TMain; TMain; TMain; TMain; TMain].

(** It enters the select, a signal comes, it stops the server and
    returns. *)
Definition signal_then_return : list Tick := up_to_select ++ [TSignal; TMain; TMain].

(** With the signals channel closed at the call, it goes through the
    select at once, stops the server and returns. *)
Definition closed_then_return : list Tick := up_to_select ++ [TMain; TMain].

(** The registrar of the Greeter service as a nil function. *)
Definition nil_registrar : any := box RegisterGreeterServer 0.

(** The registrar panics when it is called. *)
Definition world_registrar_panics : World :=
  mkWorld (7%N, None) 900
    (inl (CalleePanic
            "grpc: Server.RegisterService found duplicate service registration"))
    true.
(* ================================================================= *)
(** ** Identity of type descriptors is equality *)

Lemma Kind_eqb_eq (a b : Kind) : Kind_eqb a b = true <-> a = b.
Proof.
  unfold Kind_eqb. destruct (Kind_eq_dec a b); split; congruence.
Qed.

Lemma kind_of_plain_inj (a b : PlainKind) :
  kind_of_plain a = kind_of_plain b -> a = b.
Proof. destruct a, b; simpl; intro H; try reflexivity; discriminate H. Qed.

Lemma kind_of_plain_not_Func (k : PlainKind) : kind_of_plain k <> Func.
Proof. destruct k; discriminate. Qed.

Lemma kind_of_plain_not_Interface (k : PlainKind) : kind_of_plain k <> Interface.
Proof. destruct k; discriminate. Qed.

Lemma Method_eqb_eq (a b : Method) : Method_eqb a b = true <-> a = b.
Proof.
  destruct a as [n1 s1], b as [n2 s2]. unfold Method_eqb. simpl.
  rewrite andb_true_iff, !String.eqb_eq. split.
  - intros [-> ->]. reflexivity.
  - intro H. inversion H. auto.
Qed.

Lemma list_eqb_eq (A : Type) (eqb : A -> A -> bool) (l1 : list A) :
  Forall (fun x => forall y, eqb x y = true <-> x = y) l1 ->
  forall l2, list_eqb eqb l1 l2 = true <-> l1 = l2.
Proof.
  induction 1 as [|x l1 Hx _ IH]; intros [|y l2]; simpl;
    try (split; [discriminate | discriminate]); [tauto|].
  rewrite andb_true_iff, Hx, IH. split.
  - intros [-> ->]. reflexivity.
  - intro H'. inversion H'. auto.
Qed.

(** Induction over type descriptors that reaches the parameter and result
    types of a function type. *)
Fixpoint rtype_nested_ind (P : rtype -> Prop)
    (HF : forall name ins outs variadic,
        Forall P ins -> Forall P outs -> P (FuncType name ins outs variadic))
    (HI : forall name methods, P (InterfaceType name methods))
    (HP : forall elem, P elem -> P (PtrType elem))
    (HK : forall k name, P (PlainType k name))
    (t : rtype) {struct t} : P t :=
  let all := fix all (l : list rtype) : Forall P l :=
    match l with
    | [] => Forall_nil P
    | x :: l' => Forall_cons x (rtype_nested_ind HF HI HP HK x) (all l')
    end in
  match t with
  | FuncType name ins outs variadic => HF name ins outs variadic (all ins) (all outs)
  | InterfaceType name methods => HI name methods
  | PtrType elem => HP elem (rtype_nested_ind HF HI HP HK elem)
  | PlainType k name => HK k name
  end.

Lemma rtype_eqb_eq (a : rtype) : forall b, rtype_eqb a b = true <-> a = b.
Proof.
  induction a as [n1 i1 o1 v1 Hi Ho | n1 m1 | e1 IH | k1 n1] using rtype_nested_ind;
    intros [n2 i2 o2 v2 | n2 m2 | e2 | k2 n2]; simpl;
    try (split; [discriminate | discriminate]).
  - rewrite !andb_true_iff, String.eqb_eq, Bool.eqb_true_iff,
      (@list_eqb_eq _ rtype_eqb i1 Hi), (@list_eqb_eq _ rtype_eqb o1 Ho).
    split.
    + intros [[[-> ->] ->] ->]. reflexivity.
    + intro H. inversion H. auto.
  - rewrite andb_true_iff, String.eqb_eq.
    assert (Hm : Forall (fun x => forall y, Method_eqb x y = true <-> x = y) m1)
      by (apply Forall_forall; intros x _ y; apply Method_eqb_eq).
    rewrite (@list_eqb_eq _ Method_eqb m1 Hm).
    split; [intros [-> ->]; reflexivity | intro H; inversion H; auto].
  - rewrite IH. split; [intros ->; reflexivity | intro H; inversion H; auto].
  - unfold PlainKind_eqb. rewrite andb_true_iff, Kind_eqb_eq, String.eqb_eq.
    split.
    + intros [Hk ->]. apply kind_of_plain_inj in Hk. subst. reflexivity.
    + intro H. inversion H. auto.
Qed.

Lemma rtype_eqb_refl (a : rtype) : rtype_eqb a a = true.
Proof. apply rtype_eqb_eq. reflexivity. Qed.

Lemma implements_iff (uncommon : rtype -> list Method) (name : string)
    (ms : list Method) (V : rtype) :
  implements uncommon (InterfaceType name ms) V = true
  <-> forall m, In m ms -> In m (methods_of uncommon V).
Proof.
  simpl. rewrite forallb_forall. split; intros H m Hm.
  - specialize (H m Hm). apply existsb_exists in H.
    destruct H as [m' [Hin Heq]]. apply Method_eqb_eq in Heq. subst. exact Hin.
  - apply existsb_exists. exists m. split; [auto | apply Method_eqb_eq; reflexivity].
Qed.

(* ================================================================= *)
(** ** The constructor *)

Section Constructor.

Variable uncommon : rtype -> list Method.

#[local] Opaque rtype_eqb.

Lemma violated_not_preconditions (handler registrar : any) :
  violated uncommon handler registrar -> ~ preconditions uncommon handler registrar.
Proof. unfold violated, preconditions. tauto. Qed.

(** The constructor either finds all four preconditions and returns the
    struct, having done nothing else, or finds one violated and panics. *)
Lemma NewGRPCServer_cases (listenAddress : string) (tlsConfig : tls_Config_ptr)
    (handler registrar : any) :
  (preconditions uncommon handler registrar
   /\ NewGRPCServer uncommon listenAddress tlsConfig handler registrar
      = Ret (mkRunner listenAddress handler registrar tlsConfig))
  \/ (violated uncommon handler registrar
      /\ aborts_offline
           (NewGRPCServer uncommon listenAddress tlsConfig handler registrar) = true).
Proof.
  destruct registrar as [|t w].
  { right. split; [|reflexivity].
    left. intros (t & w & H & _). discriminate H. }
  destruct handler as [|ht hw].
  { right. split; [|reflexivity].
    right; right; right.
    intros (name & ins & outs & v & w' & ht & hw & iname & ms & _ & H & _).
    discriminate H. }
  destruct t as [name ins outs v | iname ms | e | k pname].
  2:{ right. split; [|reflexivity].
      left. intros (t & w' & H & Hk). inversion H; subst. discriminate Hk. }
  2:{ right. split; [|reflexivity].
      left. intros (t & w' & H & Hk). inversion H; subst. discriminate Hk. }
  2:{ right. split.
      - left. intros (t & w' & H & Hk). inversion H; subst.
        exact (kind_of_plain_not_Func _ Hk).
      - unfold NewGRPCServer. simpl.
        destruct (Kind_eqb (kind_of_plain k) Func) eqn:E.
        + apply Kind_eqb_eq in E. destruct (kind_of_plain_not_Func _ E).
        + reflexivity. }
  unfold NewGRPCServer. simpl.
  destruct (Nat.eqb (length ins) 2) eqn:Ein; simpl.
  2:{ right. split; [|reflexivity].
      right; left. intros (n' & i' & o' & v' & w' & H & Hl & _).
      inversion H; subst. rewrite Hl in Ein. discriminate Ein. }
  apply Nat.eqb_eq in Ein.
  destruct (Nat.eqb (length outs) 0) eqn:Eout; simpl.
  2:{ right. split; [|reflexivity].
      right; left. intros (n' & i' & o' & v' & w' & H & _ & Hl).
      inversion H; subst. rewrite Hl in Eout. discriminate Eout. }
  apply Nat.eqb_eq in Eout.
  destruct ins as [|in0 [|in1 [|]]]; try discriminate Ein. simpl.
  destruct (rtype_eqb grpc_Server_ptr in0) eqn:E0; simpl.
  2:{ right. split; [|reflexivity].
      right; right; left. intros (n' & i' & o' & v' & w' & H & Hn).
      inversion H; subst. simpl in Hn. inversion Hn; subst.
      rewrite rtype_eqb_refl in E0. discriminate E0. }
  apply rtype_eqb_eq in E0. subst in0.
  unfold Type_Implements.
  destruct in1 as [n1 i1 o1 v1 | iname ms | e1 | k1 p1]; simpl.
  1,3:(right; split; [|reflexivity]; right; right; right;
       intros (n' & i' & o' & v' & w' & ht' & hw' & iname & ms & H & _ & Hn & _);
       inversion H; subst; discriminate Hn).
  2:{ destruct (Kind_eqb (kind_of_plain k1) Interface) eqn:E.
      { apply Kind_eqb_eq in E. destruct (kind_of_plain_not_Interface _ E). }
      right. split; [|reflexivity]. right; right; right.
      intros (n' & i' & o' & v' & w' & ht' & hw' & iname & ms & H & _ & Hn & _).
      inversion H; subst. discriminate Hn. }
  destruct (forallb (fun m => existsb (Method_eqb m) (methods_of uncommon ht)) ms)
    eqn:Eimp; simpl.
  - left. split; [|reflexivity].
    assert (Hall : forall m, In m ms -> In m (methods_of uncommon ht))
      by (apply (implements_iff uncommon iname); exact Eimp).
    repeat split.
    + exists (FuncType name [grpc_Server_ptr; InterfaceType iname ms] outs v), w.
      split; reflexivity.
    + exists name, [grpc_Server_ptr; InterfaceType iname ms], outs, v, w.
      repeat split. exact Eout.
    + exists name, [grpc_Server_ptr; InterfaceType iname ms], outs, v, w.
      split; reflexivity.
    + exists name, [grpc_Server_ptr; InterfaceType iname ms], outs, v, w,
        ht, hw, iname, ms.
      repeat split. exact Hall.
  - right. split; [|reflexivity]. right; right; right.
    intros (n' & i' & o' & v' & w' & ht' & hw' & iname' & ms' & H & Hh & Hn & Hall).
    inversion H; subst. inversion Hh; subst. simpl in Hn. inversion Hn; subst.
    apply (implements_iff uncommon iname') in Hall. simpl in Hall.
    rewrite Hall in Eimp. discriminate Eimp.
Qed.

(** What returns met the preconditions. *)
Lemma returned_meets_preconditions (listenAddress : string)
    (tlsConfig : tls_Config_ptr) (handler registrar : any) (d : grpcServerRunner) :
  NewGRPCServer uncommon listenAddress tlsConfig handler registrar = Ret d ->
  preconditions uncommon handler registrar.
Proof.
  intro E.
  destruct (NewGRPCServer_cases listenAddress tlsConfig handler registrar)
    as [[Hpre _] | [_ Hab]]; [exact Hpre|].
  rewrite E in Hab. discriminate Hab.
Qed.

(** C1. [NewGRPCServer] panics, having done nothing but write the log line
    of the failed check, exactly when a precondition is violated: the
    registrar is no function value, or has not two parameters and no result,
    or its first parameter is not [*grpc.Server], or the type of the handler
    does not implement the interface of its second parameter.  When all four
    hold it returns the struct, and only then. *)
Theorem NewGRPCServer_panics_iff_precondition_violated
    (listenAddress : string) (tlsConfig : tls_Config_ptr) (handler registrar : any) :
  (aborts_offline
     (NewGRPCServer uncommon listenAddress tlsConfig handler registrar) = true
   <-> violated uncommon handler registrar)
  /\ (preconditions uncommon handler registrar
      <-> NewGRPCServer uncommon listenAddress tlsConfig handler registrar
          = Ret (mkRunner listenAddress handler registrar tlsConfig)).
Proof.
  destruct (NewGRPCServer_cases listenAddress tlsConfig handler registrar)
    as [[Hpre Heq] | [Hv Hab]].
  - split; split; intro H; auto.
    + rewrite Heq in H. discriminate H.
    + destruct (violated_not_preconditions H Hpre).
  - split; split; intro H; auto.
    + destruct (violated_not_preconditions Hv H).
    + rewrite H in Hab. discriminate Hab.
Qed.

(** C10. With a nil registrar, or a nil handler, [NewGRPCServer] panics
    before it looks at any shape: [Value.Type] on the zero Value panics with
    a [reflect.ValueError].  Nothing is written to the log, and the panic
    value is not one of the messages of the shape checks. *)
Theorem NewGRPCServer_nil_panics_in_reflect
    (listenAddress : string) (tlsConfig : tls_Config_ptr) (handler registrar : any) :
  registrar = nil_any \/ handler = nil_any ->
  NewGRPCServer uncommon listenAddress tlsConfig handler registrar
    = Panic (ValueError "reflect.Value.Type" Invalid)
  /\ logged (NewGRPCServer uncommon listenAddress tlsConfig handler registrar) = []
  /\ aborts_offline
       (NewGRPCServer uncommon listenAddress tlsConfig handler registrar) = true
  /\ forall m, ValueError "reflect.Value.Type" Invalid <> LogPanic m.
Proof.
  intros [-> | ->].
  - repeat split. discriminate.
  - destruct registrar; repeat split; discriminate.
Qed.

End Constructor.

(* ================================================================= *)
(** ** Traces *)

Lemma chan_eqb_refl (c : chan) : chan_eqb c c = true.
Proof. destruct c; simpl; auto using N.eqb_refl. Qed.

Lemma own_events_app (a b : list Event) :
  own_events (a ++ b) = own_events a ++ own_events b.
Proof. apply filter_app. Qed.

Lemma serve_returns_app (a b : list Event) :
  serve_returns (a ++ b) = serve_returns a ++ serve_returns b.
Proof.
  induction a as [|ev a IH]; simpl; [reflexivity|].
  destruct ev; simpl; rewrite ?IH; reflexivity.
Qed.

Lemma count_app (f : Event -> bool) (a b : list Event) :
  count f (a ++ b) = count f a + count f b.
Proof. unfold count. rewrite filter_app, length_app. reflexivity. Qed.

Lemma In_own_events (ev : Event) (tr : list Event) :
  is_outside ev = false -> In ev tr -> In ev (own_events tr).
Proof.
  intros H Hin. apply filter_In. split; [exact Hin | rewrite H; reflexivity].
Qed.

Lemma own_events_In (ev : Event) (tr : list Event) :
  In ev (own_events tr) -> In ev tr.
Proof. intro H. apply filter_In in H. tauto. Qed.

(** The events of a sort of Run's goroutine are counted in its own
    events. *)
Lemma count_own_events (f : Event -> bool) (tr : list Event) :
  (forall ev, f ev = true -> is_outside ev = false) ->
  count f tr = count f (own_events tr).
Proof.
  intro Hf. unfold count, own_events.
  induction tr as [|ev tr IH]; simpl; [reflexivity|].
  destruct (f ev) eqn:E.
  - rewrite (Hf ev E). simpl. rewrite E. simpl. rewrite IH. reflexivity.
  - destruct (is_outside ev); simpl; rewrite ?E; exact IH.
Qed.

(** A split of a list that has grown by one element is a split of the list
    as it was, or splits at the new element. *)
Lemma snoc_split (A : Type) (l : list A) (x y : A) (pre post : list A) :
  l ++ [x] = pre ++ y :: post ->
  (post = [] /\ pre = l /\ y = x)
  \/ exists post', post = post' ++ [x] /\ l = pre ++ y :: post'.
Proof.
  intro H. destruct post as [|p0 post0].
  - left. apply app_inj_tail in H. destruct H; subst. auto.
  - destruct (@exists_last _ (p0 :: post0)) as (post' & z & E); [discriminate|].
    rewrite E in *. right. exists post'.
    change (pre ++ y :: post' ++ [z]) with (pre ++ (y :: post') ++ [z]) in H.
    rewrite app_assoc in H. apply app_inj_tail in H. destruct H; subst. auto.
Qed.

(** Order in the events of Run's goroutine is order in the trace. *)
Lemma filter_split (A : Type) (f : A -> bool) (tr : list A) :
  forall (l1 : list A) (a : A) (l2 : list A),
    filter f tr = l1 ++ a :: l2 ->
    exists t1 t2, tr = t1 ++ a :: t2 /\ filter f t1 = l1 /\ filter f t2 = l2.
Proof.
  induction tr as [|x tr IH]; intros l1 a l2 H; simpl in H.
  - destruct l1; discriminate H.
  - destruct (f x) eqn:E.
    + destruct l1 as [|b l1]; simpl in H.
      * inversion H; subst. exists [], tr. simpl. auto.
      * inversion H; subst. destruct (IH _ _ _ H2) as (t1 & t2 & -> & H1 & H3).
        exists (b :: t1), t2. simpl. rewrite E, H1, H3. auto.
    + destruct (IH _ _ _ H) as (t1 & t2 & -> & H1 & H3).
      exists (x :: t1), t2. simpl. rewrite E, H1, H3. auto.
Qed.

Lemma before_own_events (a b : Event) (tr : list Event) :
  before a b (own_events tr) -> before a b tr.
Proof.
  intros (l1 & l2 & l3 & H). unfold own_events in H.
  apply filter_split in H. destruct H as (t1 & t2 & -> & _ & H2).
  apply filter_split in H2. destruct H2 as (t3 & t4 & -> & _ & _).
  exists t1, t3, t4. reflexivity.
Qed.

(** The selects of a trace stay as they are when events are added. *)
Lemma sel_all_snoc (signals ready : chan) (w : World) (closed0 : list chan)
    (tr : list Event) (ev : Event) :
  sel_all signals ready w closed0 tr -> is_selected ev = false ->
  sel_all signals ready w closed0 (tr ++ [ev]).
Proof.
  intros H Hev pre r post Heq. apply snoc_split in Heq.
  destruct Heq as [(_ & _ & E) | (post' & _ & E)].
  - subst ev. discriminate Hev.
  - exact (H _ _ _ E).
Qed.

Lemma sel_all_snoc_selected (signals ready : chan) (w : World)
    (closed0 : list chan) (tr : list Event) (r : Selected) :
  sel_all signals ready w closed0 tr ->
  sel_ok w (signals_closed signals ready closed0) tr r ->
  sel_all signals ready w closed0 (tr ++ [EvSelected r]).
Proof.
  intros H Hr pre r' post Heq. apply snoc_split in Heq.
  destruct Heq as [(_ & -> & E) | (post' & _ & E)].
  - inversion E; subst. exact Hr.
  - exact (H _ _ _ E).
Qed.

Section Invariant.

Variable w : World.
Variable s : grpcServerRunner.
Variables signals ready : chan.
Variable closed0 : list chan.

Local Abbreviation at_pt := (at_point s signals ready w closed0).
Local Abbreviation Inv_ := (Inv s signals ready w closed0).
Local Abbreviation sel_all_ := (sel_all signals ready w closed0).
Local Abbreviation sc_ := (signals_closed signals ready closed0).
Local Abbreviation next_pt := (next_point s signals ready w closed0).
Local Abbreviation after_pt := (point_after s signals ready w closed0).
Local Abbreviation path_ok_ := (path_ok s ready w closed0).

Lemma Value_Call_cases (fn : Value) (args : list Value) :
  (exists v, Value_Call fn args = Panic v)
  \/ Value_Call fn args = trigger (call_func fn args).
Proof.
  destruct fn as [|t wd]; simpl; [left; eauto|].
  destruct (negb (Kind_eqb (Kind_of t) Func)); [left; eauto|].
  destruct (N.eqb wd 0); [left; eauto | right; reflexivity].
Qed.

(** At the select of Run, a receive from signals can proceed when a
    signal is there or the channel is closed. *)
Lemma receivable_signals (st : State) :
  closed st = ready :: closed0 ->
  receivable signals signals st = sig_ready st || sc_.
Proof.
  intro Hc. unfold receivable, signals_closed.
  rewrite Hc, chan_eqb_refl, andb_true_r. reflexivity.
Qed.

Lemma init_Inv : Inv_ (init s signals ready closed0).
Proof.
  exists (AtListen). unfold at_point, bg_trace, sel_all. simpl.
  repeat split; try tauto; try discriminate.
  intros pre r post H. destruct pre; discriminate H.
Qed.

Lemma In_snoc_signal (tr : list Event) (ev : Event) (b : bool) :
  (b = true <-> In EvSignal tr) -> ev <> EvSignal ->
  (b = true <-> In EvSignal (tr ++ [ev])).
Proof.
  intros H Hev. rewrite in_app_iff. simpl. intuition congruence.
Qed.

Ltac own_parts Hown :=
  unfold at_point, bg_trace in *; simpl in *;
  repeat match goal with
  | |- _ /\ _ => split
  | |- Running _ = Running _ => reflexivity
  | |- Returned _ = Returned _ => reflexivity
  | |- Panicked _ = Panicked _ => reflexivity
  | |- Parked _ _ _ = Parked _ _ _ => reflexivity
  | |- own_events (_ ++ _) = _ => rewrite !own_events_app, Hown; reflexivity
  | |- _ <-> In EvSignal (_ ++ [_]) => apply In_snoc_signal; [ | discriminate]
  | |- sel_all _ _ _ _ (_ ++ [_]) => apply sel_all_snoc; [ | reflexivity]
  | |- context [serve_returns (_ ++ _)] =>
      rewrite !serve_returns_app; simpl; rewrite ?app_nil_r
  | |- @eq (list chan) _ _ => reflexivity
  | |- @eq N _ _ => reflexivity
  | |- True => exact I
  end.

(** A step of Run's goroutine leads from a point to the next. *)
Lemma main_step_next (p : Point) (st : State) :
  at_pt p st -> at_pt (next_pt p st) (main_step w signals st).
Proof.
  intro H. destruct st as [m b sr cl md tr].
  unfold at_point in H. simpl in H.
  destruct H as (Hmain & Hown & Hlis & Hbg & Hcl & Hmd & Hcs & Hsig & Hsr & Hsel).
  subst m cl md.
  destruct p; unfold main_step, next_point; simpl.
  - (* AtListen *)
    destruct (listen_result w) as [lis [e|]] eqn:El; simpl.
    + own_parts Hown; try assumption. rewrite El; reflexivity.
    + own_parts Hown; try assumption.
      * unfold the_listener. rewrite El. reflexivity.
      * rewrite El; reflexivity.
  - own_parts Hown; assumption.
  - unfold at_point, bg_trace in *; simpl in *; tauto.
  - own_parts Hown; assumption.
  - (* AtCall *)
    unfold rest_L87. fold (the_Call s w).
    destruct (Value_Call_cases (ValueOf (serverRegistrar s))
                [ValueOf_Server (the_server s w); ValueOf (handler s)])
      as [[v E] | E]; fold (the_Call s w) in E; rewrite E; simpl.
    + own_parts Hown; assumption.
    + destruct (call_result w) as [v | rs].
      * own_parts Hown; assumption.
      * own_parts Hown; assumption.
  - own_parts Hown; assumption.
  - own_parts Hown; try assumption.
    + left; reflexivity.
    + subst b. assumption.
  - (* AtClose *)
    destruct ready as [|id|n] eqn:Er.
    + own_parts Hown; assumption.
    + destruct (existsb (chan_eqb (arg_chan id)) closed0);
        own_parts Hown; assumption.
    + destruct (existsb (chan_eqb (made_chan n)) closed0);
        own_parts Hown; assumption.
  - (* AtSelect *)
    rewrite receivable_signals by reflexivity.
    unfold offered. simpl.
    assert (Hsig' : sr = true <-> In EvSignal (tr ++ [EvWait]))
      by (apply In_snoc_signal; [assumption | discriminate]).
    assert (Hsel' : sel_all signals ready w closed0 (tr ++ [EvWait]))
      by (apply sel_all_snoc; [assumption | reflexivity]).
    assert (Hret : serve_returns (tr ++ [EvWait]) = serve_returns tr)
      by (rewrite serve_returns_app; simpl; apply app_nil_r).
    assert (Hcan : sr || sc_ = true -> In EvSignal (tr ++ [EvWait]) \/ sc_ = true).
    { intro E. apply orb_true_iff in E. destruct E as [E | E]; [left | right; exact E].
      apply Hsig'. exact E. }
    assert (Hcannot : sr || sc_ = false ->
                      sr = false /\ ~ In EvSignal (tr ++ [EvWait]) /\ sc_ = false).
    { intro E. apply orb_false_iff in E. destruct E as [E1 E2].
      repeat split; auto. intro Hin. apply Hsig' in Hin. congruence. }
    unfold bg_trace in Hsr. simpl in Hbg, Hsr.
    destruct Hbg as [Hb | [e Hb]]; subst b; simpl;
      destruct (sr || sc_) eqn:Erecv; simpl.
    + unfold resolve.
      own_parts Hown; try assumption; auto.
      apply sel_all_snoc_selected; [exact Hsel'|]. simpl. split.
      * apply Hcan. reflexivity.
      * left. rewrite Hret. exact Hsr.
    + destruct (Hcannot eq_refl) as (E1 & E2 & E3).
      own_parts Hown; try assumption; auto.
    + destruct (select_pick w) eqn:Ep.
      * unfold resolve.
        own_parts Hown; try assumption; eauto.
        apply sel_all_snoc_selected; [exact Hsel'|]. simpl. split.
        -- apply Hcan. reflexivity.
        -- right. exact Ep.
      * unfold resolve.
        own_parts Hown; try assumption; eauto.
        apply sel_all_snoc_selected; [exact Hsel'|]. simpl. split.
        -- rewrite Hret. exact Hsr.
        -- right. exact Ep.
    + destruct (Hcannot eq_refl) as (E1 & E2 & E3).
      unfold resolve.
      own_parts Hown; try assumption; eauto.
      apply sel_all_snoc_selected; [exact Hsel'|]. simpl. split.
      * rewrite Hret. exact Hsr.
      * left. split; assumption.
  - unfold at_point, bg_trace in *; simpl in *; tauto.
  - own_parts Hown; assumption.
  - own_parts Hown; assumption.
  - unfold at_point, bg_trace in *; simpl in *; tauto.
  - unfold at_point, bg_trace in *; simpl in *; tauto.
  - unfold at_point, bg_trace in *; simpl in *; tauto.
  - unfold at_point, bg_trace in *; simpl in *; tauto.
Qed.

(** A signal moves a parked select only. *)
Lemma signal_step_after (p : Point) (st : State) :
  at_pt p st -> at_pt (after_pt TSignal p st) (signal_step signals st).
Proof.
  intro H. unfold signal_step, point_after.
  assert (Hnil : signals = nil_chan ->
                 at_pt match p with InSelect => InSelect | _ => p end st)
    by (intros _; destruct p; exact H).
  assert (Harr : at_pt match p with InSelect => AtStop recv_signals | _ => p end
                   (signal_arrives signals st)).
  { clear Hnil. destruct st as [m b sr cl md tr].
    unfold at_point in H. simpl in H.
    destruct H as (Hmain & Hown & Hlis & Hbg & Hcl & Hmd & Hcs & Hsig & Hsr & Hsel).
    subst m cl md.
    assert (Hsig' : true = true <-> In EvSignal (tr ++ [EvSignal]))
      by (rewrite in_app_iff; simpl; tauto).
    assert (Hret : serve_returns (tr ++ [EvSignal]) = serve_returns tr)
      by (rewrite serve_returns_app; simpl; apply app_nil_r).
    assert (Hown' : own_events (tr ++ [EvSignal]) = own_events tr)
      by (rewrite own_events_app; simpl; apply app_nil_r).
    assert (Hsel' : sel_all signals ready w closed0 (tr ++ [EvSignal]))
      by (apply sel_all_snoc; [assumption | reflexivity]).
    unfold signal_arrives.
    destruct p; simpl;
      try (unfold at_point, bg_trace in *; simpl in *;
           rewrite ?Hret, ?Hown';
           repeat split; try assumption; try apply Hsig'; try reflexivity; fail).
    rewrite chan_eqb_refl.
    unfold at_point, bg_trace, resolve in *; simpl in *.
    destruct Hbg as [Hb Hs]. subst b sr.
    rewrite (own_events_app (tr ++ [EvSignal])), Hown', Hown,
      (serve_returns_app (tr ++ [EvSignal])), Hret, Hsr.
    simpl. repeat split; auto.
    - intros _. apply in_or_app. left. apply Hsig'. reflexivity.
    - apply sel_all_snoc_selected; [exact Hsel'|]. simpl. split.
      + left. apply Hsig'. reflexivity.
      + left. rewrite Hret. exact Hsr. }
  destruct signals; [destruct p; apply Hnil; reflexivity | |];
    destruct p; exact Harr.
Qed.

(** The return of Serve moves a parked select only. *)
Lemma serve_step_after (e : error) (p : Point) (st : State) :
  at_pt p st -> at_pt (after_pt (TServe e) p st) (serve_step e st).
Proof.
  intro H. unfold point_after. destruct st as [m b sr cl md tr].
  unfold at_point in H. simpl in H.
  destruct H as (Hmain & Hown & Hlis & Hbg & Hcl & Hmd & Hcs & Hsig & Hsr & Hsel).
  subst m cl md.
  unfold serve_step. simpl.
  destruct b as [|ch|ch e'|].
  1,3,4: assert (Hni : p <> InSelect)
    by (intros ->; simpl in Hbg; destruct Hbg as [Hbg _]; discriminate Hbg);
    destruct p; try (exfalso; apply Hni; reflexivity);
    unfold at_point, bg_trace in *; simpl in *; tauto.
  assert (Hsig' : sr = true <-> In EvSignal (tr ++ [EvServeReturn e]))
    by (apply In_snoc_signal; [assumption | discriminate]).
  assert (Hret : serve_returns (tr ++ [EvServeReturn e]) = [e])
    by (rewrite serve_returns_app; unfold bg_trace in Hsr; simpl in Hsr;
        rewrite Hsr; reflexivity).
  assert (Hown' : own_events (tr ++ [EvServeReturn e]) = own_events tr)
    by (rewrite own_events_app; simpl; apply app_nil_r).
  assert (Hsel' : sel_all signals ready w closed0 (tr ++ [EvServeReturn e]))
    by (apply sel_all_snoc; [assumption | reflexivity]).
  unfold bg_trace in Hsr. simpl in Hsr.
  assert (Hch : ch = the_errCh).
  { destruct p; simpl in Hbg; try discriminate Hbg;
      try (destruct r; try discriminate Hbg);
      try (destruct Hbg as [Hbg _]);
      try (destruct Hbg as [Hbg | [e' Hbg]]; [|discriminate Hbg]);
      inversion Hbg; reflexivity. }
  subst ch.
  destruct p; simpl in Hbg; try discriminate Hbg; simpl;
    try (destruct r; try discriminate Hbg);
    try (unfold at_point, bg_trace in *; simpl in *;
         rewrite ?Hret, ?Hown';
         repeat split; try assumption; try apply Hsig'; try reflexivity;
         eauto; fail).
  unfold at_point, bg_trace, resolve in *; simpl in *.
  destruct Hbg as [_ Hs]. subst sr.
  rewrite (own_events_app (tr ++ [EvServeReturn e])), Hown', Hown,
    (serve_returns_app (tr ++ [EvServeReturn e])), Hret.
  simpl. repeat split; eauto.
  - intro F. discriminate F.
  - intro F. apply in_app_or in F. destruct F as [F | [F | []]].
    + apply Hsig'. exact F.
    + discriminate F.
  - apply sel_all_snoc_selected; [exact Hsel'|]. simpl. split.
    + exact Hret.
    + left. split; [|exact Hcs]. intro F. apply Hsig' in F. discriminate F.
Qed.

Lemma step_after (t : Tick) (p : Point) (st : State) :
  at_pt p st -> at_pt (after_pt t p st) (step w signals st t).
Proof.
  destruct t; simpl.
  - apply main_step_next.
  - apply signal_step_after.
  - apply serve_step_after.
Qed.

(** The way to a point. *)
Lemma path_ok_after (t : Tick) (p : Point) (st : State) :
  at_pt p st -> path_ok_ p -> path_ok_ (after_pt t p st).
Proof.
  intros H Hp. destruct t; simpl.
  - destruct p; simpl in *; auto.
    + destruct (snd (listen_result w)); exact I.
    + destruct (Value_Call_cases (ValueOf (serverRegistrar s))
                  [ValueOf_Server (the_server s w); ValueOf (handler s)])
        as [[v E] | E]; fold (the_Call s w) in E; rewrite E; simpl.
      * exact E.
      * destruct (call_result w) as [v | rs] eqn:Ec; simpl.
        -- split; [exact E | exact Ec].
        -- split; [exact E | eauto].
    + destruct ready as [|id|n]; simpl.
      * split; [exact Hp | left; auto].
      * destruct (existsb (chan_eqb (arg_chan id)) closed0) eqn:Ex; simpl.
        -- split; [exact Hp|]. right. repeat split; auto. discriminate.
        -- split; [exact Hp|]. split; [discriminate | exact Ex].
      * destruct (existsb (chan_eqb (made_chan n)) closed0) eqn:Ex; simpl.
        -- split; [exact Hp|]. right. repeat split; auto. discriminate.
        -- split; [exact Hp|]. split; [discriminate | exact Ex].
    + destruct (sig_ready st || sc_), (bg st); try destruct (select_pick w);
        exact Hp.
  - destruct p; simpl in *; auto. destruct signals; exact Hp.
  - destruct p; simpl in *; auto.
Qed.

Lemma step_Inv (st : State) (t : Tick) : Inv_ st -> Inv_ (step w signals st t).
Proof.
  intros [p H]. exists (after_pt t p st). apply step_after. exact H.
Qed.

Lemma exec_Inv (sched : list Tick) :
  forall st, Inv_ st -> Inv_ (exec w signals sched st).
Proof.
  unfold exec. induction sched as [|t sched IH]; intros st H; simpl.
  - exact H.
  - apply IH. apply step_Inv. exact H.
Qed.

Lemma run_Inv (sched : list Tick) : Inv_ (run w s signals ready closed0 sched).
Proof. apply exec_Inv. apply init_Inv. Qed.

End Invariant.

(* ================================================================= *)
(** ** Schedules *)

Section Schedules.

Variable w : World.
Variable signals : chan.

Local Abbreviation exec_ := (exec w signals).
Local Abbreviation step_ := (step w signals).

Lemma exec_app (a b : list Tick) (st : State) :
  exec_ (a ++ b) st = exec_ b (exec_ a st).
Proof. apply fold_left_app. Qed.

Lemma main_ticks_app (a b : list Tick) :
  main_ticks (a ++ b) = main_ticks a + main_ticks b.
Proof. unfold main_ticks. rewrite filter_app, length_app. reflexivity. Qed.

(** The trace only grows. *)
Lemma step_trace (st : State) (t : Tick) :
  exists ext, trace (step_ st t) = trace st ++ ext.
Proof.
  destruct st as [m b sr cl md tr]. destruct t; simpl.
  - unfold main_step. simpl. destruct m as [p | | |];
      try (exists []; simpl; rewrite app_nil_r; reflexivity).
    destruct p as [a | v | X e k]; simpl.
    + eexists; reflexivity.
    + eexists; reflexivity.
    + destruct e; simpl; try (eexists; reflexivity).
      * destruct (call_result w); simpl; rewrite <- ?app_assoc; eexists; reflexivity.
      * destruct g. simpl. eexists; reflexivity.
      * destruct c; simpl; try (eexists; reflexivity);
          match goal with |- context [existsb ?f ?l] => destruct (existsb f l) end;
          simpl; eexists; reflexivity.
      * match goal with |- context [receivable ?a ?c ?x] =>
          destruct (receivable a c x) end;
          unfold offered; simpl;
          destruct b as [| ch | ch e' |]; simpl;
          try destruct (chan_eqb errCh ch); try destruct (select_pick w);
          simpl; rewrite <- ?app_assoc; eexists; reflexivity.
  - unfold signal_step. destruct signals;
      [exists []; simpl; rewrite app_nil_r; reflexivity | |];
      unfold signal_arrives; simpl;
      (destruct m; simpl; try (eexists; reflexivity));
      match goal with |- context [if ?c then _ else _] => destruct c end;
      simpl; rewrite <- ?app_assoc; eexists; reflexivity.
  - unfold serve_step. simpl.
    destruct b; simpl; try (exists []; simpl; rewrite app_nil_r; reflexivity).
    destruct m; simpl; try (eexists; reflexivity).
    match goal with |- context [if ?c then _ else _] => destruct c end;
      simpl; rewrite <- ?app_assoc; eexists; reflexivity.
Qed.

Lemma exec_trace (sched : list Tick) :
  forall st, exists ext, trace (exec_ sched st) = trace st ++ ext.
Proof.
  induction sched as [|t sched IH]; intro st; simpl.
  - exists []. rewrite app_nil_r. reflexivity.
  - destruct (IH (step_ st t)) as [e2 H2]. destruct (step_trace st t) as [e1 H1].
    exists (e1 ++ e2). unfold exec in *. simpl. rewrite H2, H1, app_assoc. reflexivity.
Qed.

(** Only a step of its own moves a goroutine that is running. *)
Lemma outside_keeps_running (st : State) (t : Tick) (p : prog error) :
  main st = Running p -> t <> TMain -> main (step_ st t) = Running p.
Proof.
  intros Hm Ht. destruct st as [m b sr cl md tr]. simpl in Hm. subst m.
  destruct t; [congruence | |]; simpl.
  - unfold signal_step. destruct signals; reflexivity.
  - unfold serve_step. simpl. destruct b; reflexivity.
Qed.

Lemma stays_returned (sched : list Tick) :
  forall st x, main st = Returned x -> main (exec_ sched st) = Returned x.
Proof.
  induction sched as [|t sched IH]; intros st x H; simpl; [exact H|].
  apply IH. destruct st as [m b sr cl md tr]. simpl in H. subst m.
  destruct t; simpl; try reflexivity.
  - unfold signal_step. destruct signals; reflexivity.
  - unfold serve_step. simpl. destruct b; reflexivity.
Qed.

(** The schedule up to the first step of a goroutine that is running. *)
Lemma first_main_tick (sched : list Tick) :
  forall st p, main st = Running p -> 1 <= main_ticks sched ->
  exists s1 s2,
    sched = s1 ++ TMain :: s2
    /\ main (exec_ s1 st) = Running p
    /\ exec_ sched st = exec_ s2 (main_step w signals (exec_ s1 st))
    /\ main_ticks sched = S (main_ticks s2).
Proof.
  unfold main_ticks.
  induction sched as [|t sched IH]; intros st p Hm Hn.
  - simpl in Hn. lia.
  - destruct t.
    + exists [], sched. simpl. auto.
    + destruct (IH (step_ st TSignal) p) as (s1 & s2 & E & H1 & H2 & H3).
      * apply outside_keeps_running; [exact Hm | discriminate].
      * exact Hn.
      * exists (TSignal :: s1), s2. subst sched. simpl. auto.
    + destruct (IH (step_ st (TServe e)) p) as (s1 & s2 & E & H1 & H2 & H3).
      * apply outside_keeps_running; [exact Hm | discriminate].
      * exact Hn.
      * exists (TServe e :: s1), s2. subst sched. simpl. auto.
Qed.

(** A goroutine at a return has returned after its next step. *)
Lemma returns_in_one (sched : list Tick) (st : State) (x : error) :
  main st = Running (Ret x) -> 1 <= main_ticks sched ->
  main (exec_ sched st) = Returned x.
Proof.
  intros Hm Hn.
  destruct (first_main_tick sched st Hm Hn) as (s1 & s2 & _ & H1 & H2 & _).
  rewrite H2. apply stays_returned.
  unfold main_step. rewrite H1. reflexivity.
Qed.

End Schedules.

(* ================================================================= *)
(** ** Where a run stands, read off its trace *)

Section Runs.

Variable w : World.
Variable s : grpcServerRunner.
Variables signals ready : chan.
Variable closed0 : list chan.

Local Abbreviation at_pt := (at_point s signals ready w closed0).
Local Abbreviation run_ := (run w s signals ready closed0).
Local Abbreviation sc_ := (signals_closed signals ready closed0).
Local Abbreviation after_pt := (point_after s signals ready w closed0).
Local Abbreviation path_ok_ := (path_ok s ready w closed0).

Lemma run_app (sched more : list Tick) :
  run_ (sched ++ more) = exec w signals more (run_ sched).
Proof. apply exec_app. Qed.

Lemma run_trace_grows (sched more : list Tick) :
  exists ext, trace (run_ (sched ++ more)) = trace (run_ sched) ++ ext.
Proof. rewrite run_app. apply exec_trace. Qed.

Lemma exec_at_point (more : list Tick) (st : State) (p : Point) :
  at_pt p st -> exists p', at_pt p' (exec w signals more st).
Proof.
  intro H. apply (exec_Inv (w:=w) (s:=s) (signals:=signals) (ready:=ready) (closed0:=closed0)).
  exists p. exact H.
Qed.

Lemma point_of_selected (p : Point) (st : State) (r : Selected) :
  at_pt p st -> In (EvSelected r) (trace st) ->
  p = AtStop r \/ p = AtReturn r \/ p = Done r.
Proof.
  intros (_ & Hown & _) Hin.
  apply (In_own_events (EvSelected r)) in Hin; [|reflexivity].
  rewrite Hown in Hin. destruct p; simpl in Hin;
    repeat (destruct Hin as [Hin | Hin]; try discriminate Hin);
    try contradiction; inversion Hin; auto.
Qed.

Lemma point_of_wait (p : Point) (st : State) :
  at_pt p st -> In EvWait (trace st) ->
  p = InSelect \/ exists r, p = AtStop r \/ p = AtReturn r \/ p = Done r.
Proof.
  intros (_ & Hown & _) Hin.
  apply (In_own_events EvWait) in Hin; [|reflexivity].
  rewrite Hown in Hin. destruct p; simpl in Hin;
    repeat (destruct Hin as [Hin | Hin]; try discriminate Hin);
    try contradiction; eauto.
Qed.

Lemma point_of_returned (p : Point) (st : State) (x : error) :
  at_pt p st -> main st = Returned x ->
  (exists e, p = DoneErr e /\ x = Some e) \/ (exists r, p = Done r /\ x = err_of r).
Proof.
  intros (Hmain & _) Hret. rewrite Hmain in Hret.
  destruct p; simpl in Hret; try discriminate Hret; inversion Hret; eauto.
Qed.

(** Once the select has completed with [r], two more steps of Run's
    goroutine make it return [err_of r], whatever else happens. *)
Lemma selected_returns (p : Point) (st : State) (r : Selected) (more : list Tick) :
  at_pt p st -> In (EvSelected r) (trace st) -> 2 <= main_ticks more ->
  main (exec w signals more st) = Returned (err_of r).
Proof.
  intros H Hin Hn.
  destruct (point_of_selected r H Hin) as [-> | [-> | ->]];
    destruct H as (Hmain & _); simpl in Hmain.
  - destruct (@first_main_tick w signals more st _ Hmain) as (s1 & s2 & _ & H1 & H2 & H3);
      [lia|].
    rewrite H2. apply returns_in_one; [|lia].
    unfold main_step. rewrite H1. reflexivity.
  - apply returns_in_one; [exact Hmain | lia].
  - apply stays_returned. exact Hmain.
Qed.

(** It stops the server gracefully on the way. *)
Lemma selected_stops (p : Point) (st : State) (r : Selected) (more : list Tick) :
  at_pt p st -> In (EvSelected r) (trace st) -> 1 <= main_ticks more ->
  In (the_stop s w) (trace (exec w signals more st)).
Proof.
  intros H Hin Hn.
  assert (Hhave : forall st', at_pt (AtReturn r) st' \/ at_pt (Done r) st' ->
                  In (the_stop s w) (trace st')).
  { intros st' [(_ & Hown & _) | (_ & Hown & _)];
      apply own_events_In; rewrite Hown; simpl; tauto. }
  destruct (point_of_selected r H Hin) as [-> | [-> | ->]].
  - destruct H as (Hmain & _). simpl in Hmain.
    destruct (@first_main_tick w signals more st _ Hmain) as (s1 & s2 & _ & H1 & H2 & H3);
      [lia|].
    rewrite H2.
    destruct (exec_trace w signals s2 (main_step w signals (exec w signals s1 st)))
      as [ext E].
    rewrite E. apply in_or_app. left.
    unfold main_step. rewrite H1. simpl. apply in_or_app. right. simpl. auto.
  - destruct (exec_trace w signals more st) as [ext E]. rewrite E.
    apply in_or_app. left. apply Hhave. auto.
  - destruct (exec_trace w signals more st) as [ext E]. rewrite E.
    apply in_or_app. left. apply Hhave. auto.
Qed.

Lemma In_serve_returns (e : error) (tr : list Event) :
  In (EvServeReturn e) tr <-> In e (serve_returns tr).
Proof.
  induction tr as [|ev tr IH]; simpl; [tauto|].
  destruct ev; simpl; rewrite <- IH;
    try (split; [intros [H | H]; [discriminate H | exact H] | auto]; fail).
  split; intros [H | H]; auto.
  - inversion H. auto.
  - subst. auto.
Qed.

Lemma count_serve_returns (tr : list Event) :
  count is_serve_return tr = length (serve_returns tr).
Proof.
  unfold count. induction tr as [|ev tr IH]; simpl; [reflexivity|].
  destruct ev; simpl; rewrite IH; reflexivity.
Qed.

Lemma before_app_r (a b : Event) (l rest : list Event) :
  before a b l -> before a b (l ++ rest).
Proof.
  intros (l1 & l2 & l3 & ->). exists l1, l2, (l3 ++ rest).
  rewrite <- !app_assoc. simpl. rewrite <- app_assoc. reflexivity.
Qed.

(** The trace as Run's goroutine sees it, from the invariant. *)
Lemma run_point (sched : list Tick) : exists p, at_pt p (run_ sched).
Proof. apply run_Inv. Qed.

(** Every run stands at a point to which the way was open; before the
    select, the point tells the steps Run's goroutine has taken. *)
Lemma run_point_path (sched : list Tick) :
  exists p,
    at_pt p (run_ sched) /\ path_ok_ p
    /\ forall n, depth p = Some n -> main_ticks sched = n.
Proof.
  induction sched as [|t sched IH] using rev_ind.
  - exists AtListen. split; [|split].
    + unfold run, at_point, bg_trace, sel_all. simpl.
      repeat split; try tauto; try discriminate.
      intros pre r post H. destruct pre; discriminate H.
    + exact I.
    + intros n Hn. inversion Hn. reflexivity.
  - destruct IH as (p & H & Hp & Hd).
    exists (after_pt t p (run_ sched)).
    assert (E : run_ (sched ++ [t]) = step w signals (run_ sched) t)
      by (unfold run; rewrite exec_app; reflexivity).
    rewrite E. split; [|split].
    + apply step_after. exact H.
    + apply path_ok_after; assumption.
    + intros n Hn. rewrite main_ticks_app.
      destruct t; unfold main_ticks at 2; simpl.
      * (* a step of Run's goroutine *)
        destruct p; simpl in Hn;
          try discriminate Hn;
          repeat match type of Hn with
          | context [match ?x with _ => _ end] => destruct x; simpl in Hn
          end;
          try discriminate Hn;
          inversion Hn; subst; rewrite (Hd _ eq_refl); reflexivity.
      * destruct p; simpl in Hn; try (destruct signals; discriminate Hn);
          rewrite (Hd _ Hn); lia.
      * destruct p; simpl in Hn; try discriminate Hn; rewrite (Hd _ Hn); lia.
Qed.

(** From its seventh step on, when the listener is bound, the registrar
    returns and ready can be closed, Run's goroutine is in the select or
    past it. *)
Lemma in_or_past_select (sched : list Tick) :
  snd (listen_result w) = None ->
  registrar_returns s w ->
  ready_open ready closed0 ->
  7 <= main_ticks sched ->
  exists p,
    at_pt p (run_ sched)
    /\ (p = InSelect \/ exists r, p = AtStop r \/ p = AtReturn r \/ p = Done r).
Proof.
  intros Hl Hreg Hopen Hn.
  destruct (run_point_path sched) as (p & H & Hp & Hd).
  exists p. split; [exact H|].
  pose proof H as (_ & _ & Hlis & _).
  destruct p;
    try (specialize (Hd _ eq_refl); lia);
    simpl in Hlis, Hp; eauto.
  - congruence.
  - destruct Hreg as [Hc _]. unfold registrar_called in Hc.
    rewrite Hc in Hp. discriminate Hp.
  - destruct Hreg as [_ [rs Hc]]. destruct Hp. congruence.
  - destruct Hopen as [Hnn Hex].
    destruct Hp as (_ & [[Hr _] | (_ & Hr & _)]); congruence.
Qed.

(** While Run's goroutine is parked in the select, nothing is there for
    it; once the select has completed, something was. *)
Lemma parked_nothing_there (st : State) :
  at_pt InSelect st -> ~ select_can_proceed sc_ (trace st).
Proof.
  intros (_ & _ & _ & Hbg & _ & _ & Hpark & Hsig & Hbt & _) [[Hs | Hr] | Hc].
  - simpl in Hbg. destruct Hbg as [_ Hb]. apply Hsig in Hs. congruence.
  - simpl in Hbg. destruct Hbg as [Hb _]. unfold bg_trace in Hbt.
    rewrite Hb in Hbt. exact (Hr Hbt).
  - simpl in Hpark. congruence.
Qed.

Lemma selected_something_there (p : Point) (st : State) (r : Selected) :
  at_pt p st -> In (EvSelected r) (trace st) -> select_can_proceed sc_ (trace st).
Proof.
  intros H Hin.
  destruct H as (_ & _ & _ & _ & _ & _ & _ & _ & _ & Hsel).
  apply in_split in Hin. destruct Hin as (pre & post & Hsplit).
  pose proof (Hsel _ _ _ Hsplit) as Hok. rewrite Hsplit.
  destruct r; simpl in Hok.
  - destruct Hok as [[Hs | Hc] _].
    + left. left. apply in_or_app. left. exact Hs.
    + right. exact Hc.
  - destruct Hok as [Hs _]. left. right. rewrite serve_returns_app, Hs.
    discriminate.
Qed.

(** A select that has been entered has completed when something is there
    for it, and only then. *)
Lemma wait_completed_iff (sched : list Tick) :
  In EvWait (trace (run_ sched)) ->
  (select_can_proceed sc_ (trace (run_ sched))
   <-> exists r, In (EvSelected r) (trace (run_ sched))).
Proof.
  intro Hw. destruct (run_point sched) as [p H].
  pose proof (point_of_wait H Hw) as Hp. split.
  - intro Hcan. destruct Hp as [-> | (r & Hr)].
    + destruct (parked_nothing_there H Hcan).
    + exists r. pose proof H as (_ & Hown & _).
      apply own_events_In. rewrite Hown.
      destruct Hr as [-> | [-> | ->]]; simpl; tauto.
  - intros [r Hin]. exact (selected_something_there r H Hin).
Qed.

(** From the call on: the first step of Run's goroutine is the listen. *)
Lemma listen_step (st : State) :
  main st = Running (Run s signals ready) ->
  main (main_step w signals st)
  = match snd (listen_result w) with
    | Some e => Running (Ret (Some e))
    | None => Running (rest_L81 s signals ready (the_listener w))
    end
  /\ trace (main_step w signals st) = trace st ++ [the_listen s].
Proof.
  intro Hm. unfold main_step. rewrite Hm. simpl. unfold the_listener.
  destruct (listen_result w) as [lis [e|]]; simpl; auto.
Qed.

(** C4. When the bind of the listener fails, Run returns the error of the
    bind with its second step, straight after the listen: no run makes a
    server, calls the registrar, starts the serving goroutine, closes the
    ready channel or stops a server, and none panics. *)
Theorem Run_bind_failure_returns_at_once (e : string) (sched : list Tick) :
  snd (listen_result w) = Some e ->
  let st := run_ sched in
  (2 <= main_ticks sched -> main st = Returned (Some e))
  /\ (forall x, main st = Returned x -> x = Some e)
  /\ (forall v, main st <> Panicked v)
  /\ (forall ev, In ev (own_events (trace st)) ->
        ev = the_listen s \/ ev = EvReturn (Some e))
  /\ count is_new_server (trace st) = 0
  /\ count is_call (trace st) = 0
  /\ count is_go (trace st) = 0
  /\ count is_close (trace st) = 0
  /\ count is_graceful_stop (trace st) = 0
  /\ bg st = NotStarted
  /\ closed st = closed0.
Proof.
  intros Hl st. subst st. split.
  { intro Hn. unfold run.
    destruct (@first_main_tick w signals sched (init s signals ready closed0) _ eq_refl)
      as (s1 & s2 & _ & H1 & H2 & H3); [lia|].
    rewrite H2. apply returns_in_one; [|lia].
    destruct (listen_step _ H1) as [Hm _]. rewrite Hm, Hl. reflexivity. }
  destruct (run_point sched) as [p H].
  destruct H as (Hmain & Hown & Hlis & Hbg & Hcl & _).
  assert (Hp : p = AtListen \/ p = AtReturnErr e \/ p = DoneErr e).
  { destruct p; simpl in Hlis; auto; rewrite Hl in Hlis;
      try discriminate Hlis; inversion Hlis; auto. }
  rewrite (count_own_events is_new_server), (count_own_events is_call),
    (count_own_events is_go), (count_own_events is_close),
    (count_own_events is_graceful_stop), Hown, Hmain, Hcl;
    try (intros [] ?; try discriminate; reflexivity).
  destruct Hp as [-> | [-> | ->]]; simpl in *;
    repeat split; auto; try discriminate; try tauto; try congruence;
    intros ev Hin; simpl in Hin; intuition (subst; auto).
Qed.

(** A list with one element of a sort splits at it in one way. *)
Lemma unique_split (f : Event -> bool) (l : list Event) :
  forall (a : list Event) (x : Event) (b a' : list Event) (x' : Event)
         (b' : list Event),
    l = a ++ x :: b -> l = a' ++ x' :: b' ->
    f x = true -> f x' = true -> count f l <= 1 ->
    a = a' /\ x = x' /\ b = b'.
Proof.
  unfold count.
  induction l as [|y l IH]; intros a x b a' x' b' H H' Hx Hx' Hc.
  - destruct a; discriminate H.
  - assert (Hlater : forall (c : list Event) (z : Event) (d : list Event),
               l = c ++ z :: d -> f z = true -> 1 <= length (filter f l)).
    { intros c z d -> Hz. rewrite filter_app, length_app. simpl. rewrite Hz.
      simpl. lia. }
    simpl in Hc.
    destruct a as [|a0 a], a' as [|a0' a']; simpl in H, H';
      inversion H; inversion H'; subst.
    + auto.
    + rewrite Hx in Hc. simpl in Hc.
      pose proof (Hlater _ _ _ eq_refl Hx'). lia.
    + rewrite Hx' in Hc. simpl in Hc.
      pose proof (Hlater _ _ _ eq_refl Hx). lia.
    + destruct (IH a x b a' x' b' eq_refl H4 Hx Hx') as (-> & -> & ->); auto.
      destruct (f a0'); simpl in Hc; lia.
Qed.

Lemma own_events_split (tr l1 l2 : list Event) (ev : Event) :
  tr = l1 ++ ev :: l2 -> is_outside ev = false ->
  own_events tr = own_events l1 ++ ev :: own_events l2.
Proof.
  intros -> H. rewrite own_events_app. unfold own_events at 2. simpl.
  rewrite H. reflexivity.
Qed.

(** C5. In every run that reaches the select, the ready channel was closed
    after the listen, after the call of the registrar and after the go
    statement that starts the serving goroutine, and before Run's goroutine
    entered the select; it was closed once, and it is closed. *)
Theorem Run_ready_after_serving_before_wait (sched : list Tick) :
  let tr := trace (run_ sched) in
  In EvWait tr ->
  before (the_listen s) (the_close ready) tr
  /\ before (the_call s w) (the_close ready) tr
  /\ before (the_go s w) (the_close ready) tr
  /\ before (the_close ready) EvWait tr
  /\ count is_close tr = 1
  /\ count is_listen tr = 1 /\ count is_call tr = 1 /\ count is_go tr = 1
  /\ In ready (closed (run_ sched)).
Proof.
  intros tr Hw. subst tr.
  destruct (run_point sched) as [p H].
  assert (Hp := point_of_wait H Hw).
  destruct H as (_ & Hown & _ & _ & Hcl & _).
  assert (Hpre : exists rest,
             own_at s ready w p
             = [the_listen s; the_new_server s; the_call s w; the_make_chan;
                the_go s w; the_close ready; EvWait] ++ rest).
  { destruct Hp as [-> | [r [-> | [-> | ->]]]]; simpl; eexists; reflexivity. }
  destruct Hpre as [rest Hpre].
  rewrite (count_own_events is_close), (count_own_events is_listen),
    (count_own_events is_call), (count_own_events is_go), Hcl;
    try (intros [] ?; try discriminate; reflexivity).
  repeat split.
  - apply before_own_events. rewrite Hown, Hpre. apply before_app_r.
    exists [], [the_new_server s; the_call s w; the_make_chan; the_go s w], [EvWait].
    reflexivity.
  - apply before_own_events. rewrite Hown, Hpre. apply before_app_r.
    exists [the_listen s; the_new_server s], [the_make_chan; the_go s w], [EvWait].
    reflexivity.
  - apply before_own_events. rewrite Hown, Hpre. apply before_app_r.
    exists [the_listen s; the_new_server s; the_call s w; the_make_chan], [], [EvWait].
    reflexivity.
  - apply before_own_events. rewrite Hown, Hpre. apply before_app_r.
    exists [the_listen s; the_new_server s; the_call s w; the_make_chan; the_go s w],
      [], []. reflexivity.
  - rewrite Hown. destruct Hp as [-> | [r [-> | [-> | ->]]]]; reflexivity.
  - rewrite Hown. destruct Hp as [-> | [r [-> | [-> | ->]]]]; reflexivity.
  - rewrite Hown. destruct Hp as [-> | [r [-> | [-> | ->]]]]; reflexivity.
  - rewrite Hown. destruct Hp as [-> | [r [-> | [-> | ->]]]]; reflexivity.
  - destruct Hp as [-> | [r [-> | [-> | ->]]]]; simpl; auto.
Qed.

Lemma count_stop_at (p : Point) :
  count is_graceful_stop (own_at s ready w p) <= 1.
Proof. destruct p; simpl; unfold count; simpl; lia. Qed.

(** C7. Run stops the server gracefully at most once, and only after the
    select has completed; once the select has completed, with either
    communication, the next step of Run's goroutine stops the server, so
    that the stop has happened exactly once from then on, and in every run
    that reached the select and returned.  The select is reached: when the
    listener is bound, the registrar returns and ready can be closed, Run's
    goroutine enters it with its seventh step.  And it is left: as soon as
    something is there for it (a signal, a return of Serve, or a closed
    signals channel) it has completed, and one step later the server is
    stopped; as long as nothing is there the server is not stopped. *)
Theorem Run_graceful_stop_exactly_once (sched : list Tick) :
  let tr := trace (run_ sched) in
  count is_graceful_stop tr <= 1
  /\ (forall l1 srv l2, tr = l1 ++ EvGracefulStop srv :: l2 ->
        srv = the_server s w /\ In EvWait l1 /\ exists r, In (EvSelected r) l1)
  /\ (forall r, In (EvSelected r) tr ->
        forall more, 1 <= main_ticks more ->
          count is_graceful_stop (trace (run_ (sched ++ more))) = 1)
  /\ (forall x, In EvWait tr -> main (run_ sched) = Returned x ->
        count is_graceful_stop tr = 1)
  /\ (snd (listen_result w) = None -> registrar_returns s w ->
      ready_open ready closed0 -> 7 <= main_ticks sched -> In EvWait tr)
  /\ (In EvWait tr -> select_can_proceed sc_ tr ->
        forall more, 1 <= main_ticks more ->
          count is_graceful_stop (trace (run_ (sched ++ more))) = 1)
  /\ (In EvWait tr -> ~ select_can_proceed sc_ tr ->
        count is_graceful_stop tr = 0).
Proof.
  intro tr. subst tr.
  assert (Hstop : forall ev, is_graceful_stop ev = true -> is_outside ev = false)
    by (intros [] ?; try discriminate; reflexivity).
  destruct (run_point sched) as [p H].
  assert (Hsel_stop : forall r, In (EvSelected r) (trace (run_ sched)) ->
            forall more, 1 <= main_ticks more ->
              count is_graceful_stop (trace (run_ (sched ++ more))) = 1);
    [|split; [|split; [|split; [exact Hsel_stop|split; [|split; [|split]]]]]].
  - intros r Hin more Hn.
    pose proof (selected_stops r more H Hin Hn) as Hst.
    rewrite <- run_app in Hst.
    destruct (run_point (sched ++ more)) as [p' H'].
    destruct H' as (_ & Hown' & _).
    rewrite (@count_own_events is_graceful_stop _ Hstop), Hown'.
    apply (In_own_events (the_stop s w)) in Hst; [|reflexivity].
    rewrite Hown' in Hst.
    destruct p'; simpl in Hst;
      repeat (destruct Hst as [Hst | Hst]; try discriminate Hst);
      try contradiction; reflexivity.
  - rewrite (@count_own_events is_graceful_stop _ Hstop).
    destruct H as (_ & Hown & _). rewrite Hown. apply count_stop_at.
  - intros l1 srv l2 Hsplit.
    destruct H as (_ & Hown & _).
    pose proof (@own_events_split _ l1 l2 _ Hsplit eq_refl) as Hs.
    rewrite Hown in Hs.
    assert (Hl1 : exists r,
               own_events l1
               = [the_listen s; the_new_server s; the_call s w; the_make_chan;
                  the_go s w; the_close ready; EvWait; EvSelected r]
               /\ EvGracefulStop srv = the_stop s w).
    { destruct p; simpl in Hs;
        try (exfalso;
             assert (Hin : In (EvGracefulStop srv)
                             (own_events l1 ++ EvGracefulStop srv :: own_events l2))
               by (apply in_or_app; right; left; reflexivity);
             rewrite <- Hs in Hin; simpl in Hin;
             repeat (destruct Hin as [Hin | Hin]; try discriminate Hin);
             exact Hin).
      - destruct (@unique_split is_graceful_stop _
                    [the_listen s; the_new_server s; the_call s w; the_make_chan;
                     the_go s w; the_close ready; EvWait; EvSelected r]
                    (the_stop s w) [] _ _ _ eq_refl Hs eq_refl eq_refl)
          as (E1 & E & _); [unfold count; simpl; lia|].
        exists r. auto.
      - destruct (@unique_split is_graceful_stop _
                    [the_listen s; the_new_server s; the_call s w; the_make_chan;
                     the_go s w; the_close ready; EvWait; EvSelected r]
                    (the_stop s w) [EvReturn (err_of r)] _ _ _ eq_refl Hs
                    eq_refl eq_refl)
          as (E1 & E & _); [unfold count; simpl; lia|].
        exists r. auto. }
    destruct Hl1 as (r & Hl1 & E). inversion E. split; [reflexivity|]. split.
    + apply own_events_In. rewrite Hl1. simpl. tauto.
    + exists r. apply own_events_In. rewrite Hl1. simpl. tauto.
  - intros x Hw Hret.
    destruct (point_of_returned H Hret) as [(e & -> & _) | (r & -> & _)].
    + destruct (point_of_wait H Hw) as [F | (r & [F | [F | F]])]; discriminate F.
    + rewrite (@count_own_events is_graceful_stop _ Hstop).
      destruct H as (_ & Hown & _). rewrite Hown. reflexivity.
  - intros Hl Hreg Hopen Hn.
    destruct (in_or_past_select sched Hl Hreg Hopen Hn) as (q & Hq & Hcase).
    destruct Hq as (_ & Hown & _).
    apply own_events_In. rewrite Hown.
    destruct Hcase as [-> | (r & [-> | [-> | ->]])]; simpl; tauto.
  - intros Hw Hcan.
    destruct (proj1 (wait_completed_iff sched Hw) Hcan) as [r Hin].
    exact (Hsel_stop r Hin).
  - intros Hw Hnot.
    destruct (point_of_wait H Hw) as [-> | (r & Hr)].
    + rewrite (@count_own_events is_graceful_stop _ Hstop).
      destruct H as (_ & Hown & _). rewrite Hown. reflexivity.
    + exfalso. apply Hnot. apply (selected_something_there r H).
      destruct H as (_ & Hown & _). apply own_events_In. rewrite Hown.
      destruct Hr as [-> | [-> | ->]]; simpl; tauto.
Qed.

Lemma new_server_step (st : State) :
  main st = Running (rest_L81 s signals ready (the_listener w)) ->
  In (EvNewServer (server_options s)) (trace (main_step w signals st)).
Proof.
  intro Hm. unfold main_step. rewrite Hm. simpl.
  apply in_or_app. right. left. reflexivity.
Qed.

(** C8. Run makes the server with one option, the credentials made of
    tlsConfig, when tlsConfig is not nil, and with no option when it is nil:
    no run makes a server with other options, none makes a second server,
    and when the listen succeeds the second step of Run's goroutine makes
    that server. *)
Theorem Run_server_options_follow_tlsConfig (sched : list Tick) :
  let tr := trace (run_ sched) in
  let opts_of_tlsConfig :=
    match tlsConfig s with
    | Some c => [grpc_Creds (credentials_NewTLS c)]
    | None => []
    end in
  (forall opts, In (EvNewServer opts) tr -> opts = opts_of_tlsConfig)
  /\ count is_new_server tr <= 1
  /\ (snd (listen_result w) = None -> 2 <= main_ticks sched ->
      In (EvNewServer opts_of_tlsConfig) tr).
Proof.
  intros tr opts_of_tlsConfig. subst tr opts_of_tlsConfig.
  destruct (run_point sched) as [p H]. destruct H as (_ & Hown & _).
  split; [|split].
  - intros opts Hin. apply (In_own_events (EvNewServer opts)) in Hin; [|reflexivity].
    rewrite Hown in Hin.
    destruct p; simpl in Hin;
      repeat (destruct Hin as [Hin | Hin]; try discriminate Hin);
      try contradiction; inversion Hin; reflexivity.
  - rewrite (count_own_events is_new_server), Hown;
      [|intros [] ?; try discriminate; reflexivity].
    destruct p; unfold count; simpl; lia.
  - intros Hl Hn. unfold run.
    destruct (@first_main_tick w signals sched (init s signals ready closed0) _ eq_refl)
      as (s1 & s2 & _ & H1 & H2 & H3); [lia|].
    rewrite H2. destruct (listen_step _ H1) as [Hm _]. rewrite Hl in Hm.
    destruct (@first_main_tick w signals s2 _ _ Hm)
      as (s3 & s4 & _ & H4 & H5 & _); [lia|].
    rewrite H5.
    match goal with |- In _ (trace (exec _ _ _ ?st0)) =>
      destruct (exec_trace w signals s4 st0) as [ext E] end.
    rewrite E. apply in_or_app. left. exact (new_server_step _ H4).
Qed.

(** How a select in the trace of a run completed. *)
Lemma selected_ok (sched : list Tick) (pre : list Event) (r : Selected)
    (post : list Event) :
  trace (run_ sched) = pre ++ EvSelected r :: post -> sel_ok w sc_ pre r.
Proof.
  intro Hsplit. destruct (run_point sched) as [p H].
  destruct H as (_ & _ & _ & _ & _ & _ & _ & _ & _ & Hsel).
  exact (Hsel _ _ _ Hsplit).
Qed.

(** After the select has completed with [r], in every continuation of the
    run: Run's goroutine does not panic, returns nothing but [err_of r],
    and has returned it once it has taken two more steps. *)
Lemma after_selected (sched : list Tick) (r : Selected) (more : list Tick) :
  In (EvSelected r) (trace (run_ sched)) ->
  (forall v, main (run_ (sched ++ more)) <> Panicked v)
  /\ (forall x, main (run_ (sched ++ more)) = Returned x ->
        x = err_of r
        /\ own_events (trace (run_ (sched ++ more))) = own_at s ready w (Done r))
  /\ (2 <= main_ticks more -> main (run_ (sched ++ more)) = Returned (err_of r)).
Proof.
  intro Hin.
  assert (Hin' : In (EvSelected r) (trace (run_ (sched ++ more)))).
  { destruct (run_trace_grows sched more) as [ext E]. rewrite E.
    apply in_or_app. left. exact Hin. }
  destruct (run_point (sched ++ more)) as [p' H'].
  pose proof (point_of_selected r H' Hin') as Hp.
  split; [|split].
  - intros v Hv. destruct H' as (Hmain & _). rewrite Hmain in Hv.
    destruct Hp as [-> | [-> | ->]]; discriminate Hv.
  - intros x Hx. destruct H' as (Hmain & Hown & _). rewrite Hmain in Hx.
    destruct Hp as [-> | [-> | ->]]; try discriminate Hx.
    inversion Hx. auto.
  - intro Hn. rewrite run_app. destruct (run_point sched) as [p H].
    exact (selected_returns r more H Hin Hn).
Qed.

Lemma before_stop_return (tr : list Event) (r : Selected) :
  own_events tr = own_at s ready w (Done r) ->
  before (EvSelected r) (the_stop s w) tr
  /\ before (the_stop s w) (EvReturn (err_of r)) tr
  /\ count is_graceful_stop tr = 1
  /\ count is_listen tr = 1
  /\ count is_go tr = 1
  /\ count is_return tr = 1.
Proof.
  intro Hown.
  rewrite (count_own_events is_graceful_stop), (count_own_events is_listen),
    (count_own_events is_go), (count_own_events is_return), Hown;
    try (intros [] ?; try discriminate; reflexivity).
  repeat split.
  - apply before_own_events. rewrite Hown.
    exists [the_listen s; the_new_server s; the_call s w; the_make_chan;
            the_go s w; the_close ready; EvWait], [], [EvReturn (err_of r)].
    reflexivity.
  - apply before_own_events. rewrite Hown.
    exists [the_listen s; the_new_server s; the_call s w; the_make_chan;
            the_go s w; the_close ready; EvWait; EvSelected r], [], [].
    reflexivity.
Qed.

(** C2, as the code has it.  When the select completes after Serve has
    returned [e] and while nothing can be received from signals (no signal
    has come, and the channel is not closed), it completes with the receive
    of [e] from errCh; two steps of Run's goroutine later, whatever else
    has happened meanwhile, Run has returned [e], after the graceful stop,
    having listened once and started the serving goroutine once. *)
Theorem Run_returns_serve_error_when_no_signal_is_pending
    (sched : list Tick) (e : error) (pre : list Event) (r : Selected)
    (post : list Event) :
  trace (run_ sched) = pre ++ EvSelected r :: post ->
  In (EvServeReturn e) pre ->
  ~ In EvSignal pre ->
  signals_closed signals ready closed0 = false ->
  r = recv_errCh e
  /\ forall more, 2 <= main_ticks more ->
       main (run_ (sched ++ more)) = Returned e
       /\ before (EvSelected (recv_errCh e)) (the_stop s w)
            (trace (run_ (sched ++ more)))
       /\ before (the_stop s w) (EvReturn e) (trace (run_ (sched ++ more)))
       /\ count is_graceful_stop (trace (run_ (sched ++ more))) = 1
       /\ count is_listen (trace (run_ (sched ++ more))) = 1
       /\ count is_go (trace (run_ (sched ++ more))) = 1.
Proof.
  intros Hsplit Hret Hnosig Hopen.
  pose proof (@selected_ok _ _ _ _ Hsplit) as Hok.
  assert (Hr : r = recv_errCh e).
  { destruct r as [|e']; simpl in Hok.
    - destruct Hok as [[F | F] _]; [contradiction | congruence].
    - destruct Hok as [Hs _]. apply In_serve_returns in Hret.
      rewrite Hs in Hret. destruct Hret as [<- | []]. reflexivity. }
  subst r. split; [reflexivity|]. intros more Hn.
  assert (Hin : In (EvSelected (recv_errCh e)) (trace (run_ sched)))
    by (rewrite Hsplit; apply in_or_app; right; left; reflexivity).
  destruct (@after_selected sched _ more Hin) as (_ & Hx & Hgo).
  specialize (Hgo Hn). destruct (Hx _ Hgo) as [_ Hown].
  destruct (before_stop_return _ Hown) as (B1 & B2 & C1 & C2 & C3 & _).
  simpl in B2. auto 10.
Qed.

(** C3, as the code has it.  When the select completes after a signal has
    come and while Serve has not returned an error (it has not returned, or
    it has returned nil), the select completes with the receive from
    signals or with the receive of that nil from errCh, and with the
    receive from signals when Serve has not returned; either way, two steps
    of Run's goroutine later, whatever else has happened meanwhile, Run has
    returned nil, after the graceful stop.  The listener was bound. *)
Theorem Run_returns_nil_when_no_serve_error_is_pending
    (sched : list Tick) (pre : list Event) (r : Selected) (post : list Event) :
  trace (run_ sched) = pre ++ EvSelected r :: post ->
  In EvSignal pre ->
  (forall e, In (EvServeReturn e) pre -> e = None) ->
  err_of r = None
  /\ (serve_returns pre = [] -> r = recv_signals)
  /\ snd (listen_result w) = None
  /\ In (the_listen s) pre
  /\ forall more, 2 <= main_ticks more ->
       main (run_ (sched ++ more)) = Returned None
       /\ before (EvSelected r) (the_stop s w)
            (trace (run_ (sched ++ more)))
       /\ before (the_stop s w) (EvReturn None) (trace (run_ (sched ++ more)))
       /\ count is_graceful_stop (trace (run_ (sched ++ more))) = 1.
Proof.
  intros Hsplit Hsig Hnoerr.
  pose proof (@selected_ok _ _ _ _ Hsplit) as Hok.
  assert (Herr : err_of r = None).
  { destruct r as [|e']; simpl in Hok |- *; [reflexivity|].
    destruct Hok as [Hs _]. apply Hnoerr. apply In_serve_returns.
    rewrite Hs. left. reflexivity. }
  split; [exact Herr|].
  split.
  { intro Hnone. destruct r as [|e']; simpl in Hok; [reflexivity|].
    destruct Hok as [Hs _]. rewrite Hnone in Hs. discriminate Hs. }
  assert (Hin : In (EvSelected r) (trace (run_ sched)))
    by (rewrite Hsplit; apply in_or_app; right; left; reflexivity).
  split; [|split].
  - destruct (run_point sched) as [p H].
    pose proof (point_of_selected _ H Hin) as Hp.
    destruct H as (_ & _ & Hlis & _).
    destruct Hp as [-> | [-> | ->]]; exact Hlis.
  - destruct (run_point sched) as [p H].
    pose proof (point_of_selected _ H Hin) as Hp.
    destruct H as (_ & Hown & _).
    pose proof (@own_events_split _ pre post _ Hsplit eq_refl) as Hs.
    rewrite Hown in Hs.
    assert (Hpre : own_events pre
                   = [the_listen s; the_new_server s; the_call s w; the_make_chan;
                      the_go s w; the_close ready; EvWait]).
    { destruct Hp as [-> | [-> | ->]]; simpl in Hs.
      - destruct (@unique_split is_selected _
                    [the_listen s; the_new_server s; the_call s w; the_make_chan;
                     the_go s w; the_close ready; EvWait]
                    (EvSelected r) [] _ _ _ eq_refl Hs eq_refl eq_refl)
          as (E1 & _); [unfold count; simpl; lia | auto].
      - destruct (@unique_split is_selected _
                    [the_listen s; the_new_server s; the_call s w; the_make_chan;
                     the_go s w; the_close ready; EvWait]
                    (EvSelected r) [the_stop s w] _ _ _ eq_refl Hs
                    eq_refl eq_refl)
          as (E1 & _); [unfold count; simpl; lia | auto].
      - destruct (@unique_split is_selected _
                    [the_listen s; the_new_server s; the_call s w; the_make_chan;
                     the_go s w; the_close ready; EvWait]
                    (EvSelected r)
                    [the_stop s w; EvReturn (err_of r)] _ _ _ eq_refl Hs
                    eq_refl eq_refl)
          as (E1 & _); [unfold count; simpl; lia | auto]. }
    apply own_events_In. rewrite Hpre. left. reflexivity.
  - intros more Hn.
    destruct (@after_selected sched _ more Hin) as (_ & Hx & Hgo).
    specialize (Hgo Hn). destruct (Hx _ Hgo) as [_ Hown].
    destruct (before_stop_return _ Hown) as (B1 & B2 & C1 & _).
    rewrite Herr in Hgo, B2. auto.
Qed.

(** C6, as the code has it.  The communication the select completes with
    decides what Run returns, and the other one changes nothing any more:
    in every continuation Run's goroutine does not panic, returns nothing
    else, and has returned after two more steps.  The select completes with
    a communication that could proceed; when only one could, it is that
    one, and when both could, it is the one the runtime picks, whichever
    came first ([sel_ok]; a receive from signals can proceed when a signal
    has come or the channel is closed).  Serve returns at most once, so
    that at most one value is sent on errCh, and at most one is received
    from it; the select completes at most once, Run returns at most once,
    and no run that has entered the select panics.  The select is entered:
    when the listener is bound, the registrar returns and ready can be
    closed, with the seventh step of Run's goroutine; from then on it has
    completed if something is there for it, and Run's goroutine is blocked
    in it if nothing is. *)
Theorem Run_select_decides_the_outcome (sched : list Tick) :
  let st := run_ sched in
  let tr := trace st in
  count is_serve_return tr <= 1
  /\ count is_received_err tr <= 1
  /\ count is_selected tr <= 1
  /\ count is_return tr <= 1
  /\ (In EvWait tr -> forall v, main st <> Panicked v)
  /\ (forall pre r post, tr = pre ++ EvSelected r :: post ->
       sel_ok w sc_ pre r
       /\ forall more,
            (forall v, main (run_ (sched ++ more)) <> Panicked v)
            /\ (forall x, main (run_ (sched ++ more)) = Returned x -> x = err_of r)
            /\ (2 <= main_ticks more ->
                main (run_ (sched ++ more)) = Returned (err_of r)))
  /\ (snd (listen_result w) = None -> registrar_returns s w ->
      ready_open ready closed0 -> 7 <= main_ticks sched ->
      In EvWait tr
      /\ (select_can_proceed sc_ tr -> exists r, In (EvSelected r) tr)
      /\ (~ select_can_proceed sc_ tr ->
          main st = Parked signals the_errCh (rest_selected (the_server s w)))).
Proof.
  intros st tr. subst st tr.
  destruct (run_point sched) as [p H].
  assert (Hown : own_events (trace (run_ sched)) = own_at s ready w p)
    by (destruct H as (_ & Hown & _); exact Hown).
  split; [|split; [|split; [|split; [|split; [|split]]]]].
  - rewrite count_serve_returns.
    destruct H as (_ & _ & _ & _ & _ & _ & _ & _ & Hbt & _).
    unfold bg_trace in Hbt.
    destruct (bg (run_ sched)); [ | | | destruct Hbt as [e Hbt]];
      rewrite Hbt; simpl; lia.
  - rewrite (count_own_events is_received_err), Hown;
      [|intros [] ?; try discriminate; reflexivity].
    destruct p; try destruct r; unfold count; simpl; lia.
  - rewrite (count_own_events is_selected), Hown;
      [|intros [] ?; try discriminate; reflexivity].
    destruct p; unfold count; simpl; lia.
  - rewrite (count_own_events is_return), Hown;
      [|intros [] ?; try discriminate; reflexivity].
    destruct p; unfold count; simpl; lia.
  - intros Hw v Hv. pose proof (point_of_wait H Hw) as Hp.
    destruct H as (Hmain & _). rewrite Hmain in Hv.
    destruct Hp as [-> | (r & [-> | [-> | ->]])]; discriminate Hv.
  - intros pre r post Hsplit. split.
    + exact (@selected_ok _ _ _ _ Hsplit).
    + intro more.
      assert (Hin : In (EvSelected r) (trace (run_ sched)))
        by (rewrite Hsplit; apply in_or_app; right; left; reflexivity).
      destruct (@after_selected sched _ more Hin) as (Hp & Hx & Hgo).
      repeat split; auto. intros x Hret. destruct (Hx x Hret). assumption.
  - intros Hl Hreg Hopen Hn.
    destruct (in_or_past_select sched Hl Hreg Hopen Hn) as (q & Hq & Hcase).
    assert (Hw : In EvWait (trace (run_ sched))).
    { destruct Hq as (_ & Hown' & _). apply own_events_In. rewrite Hown'.
      destruct Hcase as [-> | (r & [-> | [-> | ->]])]; simpl; tauto. }
    split; [exact Hw|]. split.
    + apply (wait_completed_iff sched Hw).
    + intro Hnot. destruct Hcase as [-> | (r & Hr)].
      * destruct Hq as (Hmain & _). exact Hmain.
      * exfalso. apply Hnot. apply (selected_something_there r Hq).
        destruct Hq as (_ & Hown' & _). apply own_events_In. rewrite Hown'.
        destruct Hr as [-> | [-> | ->]]; simpl; tauto.
Qed.

(** X1. When the select has completed with the receive from signals, nothing
    ever receives from errCh: the serving goroutine, once Serve has
    returned, stays blocked in its send, in every continuation of the
    run. *)
Theorem Run_signal_leaves_the_sender_blocked
    (sched more : list Tick) :
  In (EvSelected recv_signals) (trace (run_ sched)) ->
  bg (run_ (sched ++ more)) <> Delivered
  /\ count is_received_err (trace (run_ (sched ++ more))) = 0
  /\ forall e, In (EvServeReturn e) (trace (run_ (sched ++ more))) ->
       bg (run_ (sched ++ more)) = Sending the_errCh e.
Proof.
  intro Hin.
  assert (Hin' : In (EvSelected recv_signals) (trace (run_ (sched ++ more)))).
  { destruct (run_trace_grows sched more) as [ext E]. rewrite E.
    apply in_or_app. left. exact Hin. }
  destruct (run_point (sched ++ more)) as [p' H'].
  pose proof (point_of_selected _ H' Hin') as Hp.
  destruct H' as (_ & Hown & _ & Hbg & _ & _ & _ & _ & Hbt & _).
  assert (Hb : bg (run_ (sched ++ more)) = InServe the_errCh
               \/ exists e, bg (run_ (sched ++ more)) = Sending the_errCh e)
    by (destruct Hp as [-> | [-> | ->]]; exact Hbg).
  split; [|split].
  - destruct Hb as [Hb | [e Hb]]; rewrite Hb; discriminate.
  - rewrite (count_own_events is_received_err), Hown;
      [|intros [] ?; try discriminate; reflexivity].
    destruct Hp as [-> | [-> | ->]]; reflexivity.
  - intros e He. apply In_serve_returns in He. unfold bg_trace in Hbt.
    destruct Hb as [Hb | [e' Hb]]; rewrite Hb in *; rewrite Hbt in He.
    + destruct He.
    + destruct He as [<- | []]. reflexivity.
Qed.

End Runs.

(* ================================================================= *)
(** ** The Greeter service: the constructor and runs *)

Example greeter_runner_is_constructed :
  NewGRPCServer greeter_tables "127.0.0.1:50051" None the_handler the_registrar
  = Ret greeter_runner.
Proof. reflexivity. Qed.

Example greeter_meets_preconditions :
  preconditions greeter_tables the_handler the_registrar.
Proof.
  apply (@returned_meets_preconditions
           greeter_tables "127.0.0.1:50051" None the_handler the_registrar
           greeter_runner).
  reflexivity.
Qed.

(** The constructor's checks, one by one. *)
Example registrar_not_a_function :
  NewGRPCServer greeter_tables "127.0.0.1:50051" None the_handler the_handler
  = log_Panicf "NewGRPCServer: `serverRegistrar` should be %s but is %s"
      [ArgKind Func; ArgKind Ptr] ;; Ret greeter_runner.
Proof. reflexivity. Qed.

Example registrar_first_parameter_not_a_server :
  aborts_offline
    (NewGRPCServer greeter_tables "127.0.0.1:50051" None the_handler
       (box (FuncType "" [greeter; GreeterServer] [] false) 8192)) = true
  /\ logged
       (NewGRPCServer greeter_tables "127.0.0.1:50051" None the_handler
          (box (FuncType "" [greeter; GreeterServer] [] false) 8192))
     = [fmt_Sprintf
          "NewGRPCServer: type of `serverRegistrar`'s first parameter must be `*grpc.Server` but is %s"
          [ArgType greeter]].
Proof. split; reflexivity. Qed.

Example handler_without_the_method :
  aborts_offline
    (NewGRPCServer greeter_tables "127.0.0.1:50051" None
       (box (PlainType PInt "int") 5) the_registrar) = true
  /\ logged
       (NewGRPCServer greeter_tables "127.0.0.1:50051" None
          (box (PlainType PInt "int") 5) the_registrar)
     = [fmt_Sprintf
          "NewGRPCServer: type of `serverRegistrar`'s second parameter %s is not implemented by `handler` type %s"
          [ArgType GreeterServer; ArgType (PlainType PInt "int")]].
Proof. split; reflexivity. Qed.

(** A second parameter that is no interface makes [Type.Implements] panic,
    with no line in the log. *)
Example second_parameter_not_an_interface :
  NewGRPCServer greeter_tables "127.0.0.1:50051" None the_handler
    (box (FuncType "" [grpc_Server_ptr; greeter] [] false) 8192)
  = Panic (ReflectPanic "reflect: non-interface type passed to Type.Implements").
Proof. reflexivity. Qed.

(** With a nil registrar the constructor panics in [Value.Type]. *)
Lemma NewGRPCServer_nil_registrar_witness :
  NewGRPCServer greeter_tables "127.0.0.1:50051" None the_handler nil_any
  = Panic (ValueError "reflect.Value.Type" Invalid).
Proof.
  exact (proj1 (@NewGRPCServer_nil_panics_in_reflect greeter_tables
                  "127.0.0.1:50051" None the_handler nil_any
                  (or_introl eq_refl))).
Defined.

(** With the address in use, Run has returned the error of the bind after
    its second step. *)
Lemma Run_bind_failure_witness :
  main (run world_bind_fails greeter_runner sig_chan ready_chan []
          [TSignal; TMain; TMain])
  = Returned (Some "listen tcp 127.0.0.1:50051: bind: address already in use").
Proof.
  exact (proj1 (@Run_bind_failure_returns_at_once world_bind_fails greeter_runner
                  sig_chan ready_chan []
                  "listen tcp 127.0.0.1:50051: bind: address already in use"
                  [TSignal; TMain; TMain] eq_refl)
               (le_n 2)).
Defined.

(** A run that has reached the select closed the ready channel before. *)
Lemma Run_ready_witness :
  before (the_close ready_chan) EvWait
    (trace (run world_pick_signals greeter_runner sig_chan ready_chan []
              up_to_select)).
Proof.
  refine (proj1 (proj2 (proj2 (proj2
            (@Run_ready_after_serving_before_wait world_pick_signals
               greeter_runner sig_chan ready_chan [] up_to_select _))))).
  simpl. tauto.
Defined.

(** Serve fails while Run's goroutine is parked in the select: Run returns
    the error. *)
Lemma Run_returns_serve_error_witness :
  main (run world_pick_signals greeter_runner sig_chan ready_chan []
          ((up_to_select ++ [TServe closed_listener]) ++ [TMain; TSignal; TMain]))
  = Returned closed_listener.
Proof.
  refine (proj1 (proj2
            (@Run_returns_serve_error_when_no_signal_is_pending
               world_pick_signals greeter_runner sig_chan ready_chan []
               (up_to_select ++ [TServe closed_listener]) closed_listener
               [the_listen greeter_runner; the_new_server greeter_runner;
                the_call greeter_runner world_pick_signals; the_make_chan;
                the_go greeter_runner world_pick_signals; the_close ready_chan;
                EvWait; EvServeReturn closed_listener]
               (recv_errCh closed_listener) [] _ _ _ _)
            [TMain; TSignal; TMain] (le_n 2))).
  - reflexivity.
  - simpl. tauto.
  - simpl. intuition discriminate.
  - reflexivity.
Defined.

(** Serve returns nil and a signal arrives, both before the select; the
    runtime picks the receive from errCh: Run returns nil. *)
Lemma Run_returns_nil_witness :
  main (run world_pick_errCh greeter_runner sig_chan ready_chan []
          ((through_go ++ [TServe None; TSignal; TMain; TMain])
           ++ [TMain; TMain]))
  = Returned None.
Proof.
  refine (proj1 (proj2 (proj2 (proj2 (proj2
            (@Run_returns_nil_when_no_serve_error_is_pending
               world_pick_errCh greeter_runner sig_chan ready_chan []
               (through_go ++ [TServe None; TSignal; TMain; TMain])
               [the_listen greeter_runner; the_new_server greeter_runner;
                the_call greeter_runner world_pick_errCh; the_make_chan;
                the_go greeter_runner world_pick_errCh;
                EvServeReturn None; EvSignal; the_close ready_chan; EvWait]
               (recv_errCh None) [] _ _ _))))
            [TMain; TMain] (le_n 2))).
  - reflexivity.
  - simpl. tauto.
  - intros e H. simpl in H.
    repeat (destruct H as [H | H]; [try discriminate H; inversion H; reflexivity|]).
    destruct H.
Defined.

(** C2 fails as stated.  Serve returns its error while Run's goroutine is
    between the go statement and the select, and a signal arrives after
    that, also before the select: both cases of the select can proceed, the
    runtime picks the first, and Run returns nil, not the error, although
    the error came before any signal. *)
Lemma Run_serve_error_first_yet_nil :
  NewGRPCServer greeter_tables "127.0.0.1:50051" None the_handler the_registrar
  = Ret greeter_runner
  /\ trace (run world_pick_signals greeter_runner sig_chan ready_chan []
              (through_go ++ [TServe closed_listener; TSignal;
                              TMain; TMain; TMain; TMain]))
     = [the_listen greeter_runner; the_new_server greeter_runner;
        the_call greeter_runner world_pick_signals; the_make_chan;
        the_go greeter_runner world_pick_signals;
        EvServeReturn closed_listener; EvSignal;
        the_close ready_chan; EvWait; EvSelected recv_signals;
        the_stop greeter_runner world_pick_signals; EvReturn None]
  /\ main (run world_pick_signals greeter_runner sig_chan ready_chan []
             (through_go ++ [TServe closed_listener; TSignal;
                             TMain; TMain; TMain; TMain]))
     = Returned None
  /\ closed_listener <> None.
Proof. repeat split. discriminate. Qed.

(** C3 fails as stated.  The listen succeeds and a signal arrives before
    Serve returns its error, both before Run's goroutine reaches the
    select: the runtime picks the second case, and Run returns the error,
    not nil. *)
Lemma Run_signal_first_yet_error :
  NewGRPCServer greeter_tables "127.0.0.1:50051" None the_handler the_registrar
  = Ret greeter_runner
  /\ trace (run world_pick_errCh greeter_runner sig_chan ready_chan []
              (TSignal :: through_go ++ [TServe closed_listener;
                                         TMain; TMain; TMain; TMain]))
     = [EvSignal;
        the_listen greeter_runner; the_new_server greeter_runner;
        the_call greeter_runner world_pick_errCh; the_make_chan;
        the_go greeter_runner world_pick_errCh;
        EvServeReturn closed_listener;
        the_close ready_chan; EvWait; EvSelected (recv_errCh closed_listener);
        the_stop greeter_runner world_pick_errCh; EvReturn closed_listener]
  /\ main (run world_pick_errCh greeter_runner sig_chan ready_chan []
             (TSignal :: through_go ++ [TServe closed_listener;
                                        TMain; TMain; TMain; TMain]))
     = Returned closed_listener
  /\ closed_listener <> None.
Proof. repeat split. discriminate. Qed.

(** C6 fails as stated.  Under one schedule, in which the signal arrives
    first and the error of Serve second, both before the select, Run
    returns nil when the runtime picks the first case and the error when it
    picks the second: which came first does not decide. *)
Lemma Run_first_arrival_does_not_decide :
  let sched := through_go ++ [TSignal; TServe closed_listener;
                              TMain; TMain; TMain; TMain] in
  before EvSignal (EvServeReturn closed_listener)
    (trace (run world_pick_signals greeter_runner sig_chan ready_chan [] sched))
  /\ trace (run world_pick_errCh greeter_runner sig_chan ready_chan [] sched)
     = [the_listen greeter_runner; the_new_server greeter_runner;
        the_call greeter_runner world_pick_errCh; the_make_chan;
        the_go greeter_runner world_pick_errCh;
        EvSignal; EvServeReturn closed_listener;
        the_close ready_chan; EvWait; EvSelected (recv_errCh closed_listener);
        the_stop greeter_runner world_pick_errCh; EvReturn closed_listener]
  /\ main (run world_pick_signals greeter_runner sig_chan ready_chan [] sched)
     = Returned None
  /\ main (run world_pick_errCh greeter_runner sig_chan ready_chan [] sched)
     = Returned closed_listener
  /\ closed_listener <> None.
Proof.
  repeat split; try discriminate.
  exists [the_listen greeter_runner; the_new_server greeter_runner;
          the_call greeter_runner world_pick_signals; the_make_chan;
          the_go greeter_runner world_pick_signals], [],
         [the_close ready_chan; EvWait; EvSelected recv_signals;
          the_stop greeter_runner world_pick_signals; EvReturn None].
  reflexivity.
Qed.

(** After a signal has won, Serve returns, and its goroutine blocks in the
    send for good. *)
Lemma Run_sender_blocked_witness :
  bg (run world_pick_signals greeter_runner sig_chan ready_chan []
        ((up_to_select ++ [TSignal])
         ++ [TMain; TServe closed_listener; TMain]))
  = Sending the_errCh closed_listener.
Proof.
  refine (proj2 (proj2
            (@Run_signal_leaves_the_sender_blocked world_pick_signals
               greeter_runner sig_chan ready_chan []
               (up_to_select ++ [TSignal])
               [TMain; TServe closed_listener; TMain] _))
            closed_listener _).
  - simpl. tauto.
  - simpl. tauto.
Defined.


(** A signal arrives while Run's goroutine is parked in the select: the
    select completes. *)
Lemma Run_select_completes_witness :
  exists r,
    In (EvSelected r)
      (trace (run world_pick_signals greeter_runner sig_chan ready_chan []
                (up_to_select ++ [TSignal]))).
Proof.
  refine (proj1 (proj2
            (proj2 (proj2 (proj2 (proj2 (proj2 (proj2
               (@Run_select_decides_the_outcome world_pick_signals
                  greeter_runner sig_chan ready_chan []
                  (up_to_select ++ [TSignal])))))))
               _ _ _ _)) _).
  - reflexivity.
  - split; [reflexivity | exists []; reflexivity].
  - split; [discriminate | reflexivity].
  - unfold main_ticks. simpl. lia.
  - left. left. simpl. tauto.
Defined.

(** And with the next step of Run's goroutine the server is stopped,
    once. *)
Lemma Run_graceful_stop_witness :
  count is_graceful_stop
    (trace (run world_pick_signals greeter_runner sig_chan ready_chan []
              ((up_to_select ++ [TSignal]) ++ [TMain]))) = 1.
Proof.
  refine (proj1 (proj2 (proj2 (proj2 (proj2 (proj2
            (@Run_graceful_stop_exactly_once world_pick_signals
               greeter_runner sig_chan ready_chan []
               (up_to_select ++ [TSignal])))))))
            _ _ [TMain] (le_n 1)).
  - simpl. tauto.
  - left. left. simpl. tauto.
Defined.
(* ================================================================= *)
(** ** The point after each tick *)

Section Steps.

Variable w : World.
Variable s : grpcServerRunner.
Variables signals ready : chan.
Variable closed0 : list chan.

Local Abbreviation at_pt := (at_point s signals ready w closed0).
Local Abbreviation next_pt := (next_point s signals ready w closed0).
Local Abbreviation after_pt := (point_after s signals ready w closed0).
Local Abbreviation path_ok_ := (path_ok s ready w closed0).
Local Abbreviation run_ := (run w s signals ready closed0).

(** What a tick adds to the trace comes from Run's goroutine, or is the
    signal or the return of Serve that the tick stands for. *)
Lemma step_adds (st : State) (t : Tick) (ev : Event) :
  In ev (trace (step w signals st t)) ->
  In ev (trace st)
  \/ is_outside ev = false
  \/ (ev = EvSignal /\ t = TSignal /\ signals <> nil_chan)
  \/ (exists e, ev = EvServeReturn e /\ t = TServe e).
Proof.
  intro Hin.
  assert (Hext : forall ext,
             In ev (trace st ++ ext) ->
             (forall x, In x ext ->
                is_outside x = false
                \/ (x = EvSignal /\ t = TSignal /\ signals <> nil_chan)
                \/ (exists e, x = EvServeReturn e /\ t = TServe e)) ->
             In ev (trace st)
             \/ is_outside ev = false
             \/ (ev = EvSignal /\ t = TSignal /\ signals <> nil_chan)
             \/ (exists e, ev = EvServeReturn e /\ t = TServe e)).
  { intros ext H Hx. apply in_app_or in H. destruct H as [H | H]; auto. }
  destruct st as [m b sr cl md tr]. destruct t; simpl in Hin.
  - unfold main_step in Hin. simpl in Hin.
    destruct m as [p | | |]; simpl in Hin; auto.
    destruct p as [a | v | X e k]; simpl in Hin.
    + apply (Hext _ Hin). intros x [<- | []]. left. reflexivity.
    + apply (Hext _ Hin). intros x [<- | []]. left. reflexivity.
    + destruct e; simpl in Hin;
        try (apply (Hext _ Hin); intros x [<- | []]; left; reflexivity).
      * destruct (call_result w); simpl in Hin; rewrite <- ?app_assoc in Hin;
          apply (Hext _ Hin); simpl; intros x Hx;
          repeat (destruct Hx as [<- | Hx]; [left; reflexivity|]); contradiction.
      * destruct g. simpl in Hin.
        apply (Hext _ Hin). intros x [<- | []]. left. reflexivity.
      * destruct c; simpl in Hin;
          try (apply (Hext _ Hin); intros x [<- | []]; left; reflexivity);
          match type of Hin with context [existsb ?f ?l] =>
            destruct (existsb f l) end;
          simpl in Hin; apply (Hext _ Hin); intros x [<- | []]; left; reflexivity.
      * match type of Hin with context [receivable ?a ?c ?x] =>
          destruct (receivable a c x) end;
          unfold offered in Hin; simpl in Hin;
          destruct b as [| ch | ch e' |]; simpl in Hin;
          try destruct (chan_eqb errCh ch); try destruct (select_pick w);
          simpl in Hin; rewrite <- ?app_assoc in Hin;
          apply (Hext _ Hin); simpl; intros x Hx;
          repeat (destruct Hx as [<- | Hx]; [left; reflexivity|]); contradiction.
  - unfold signal_step in Hin.
    assert (Harr : signals <> nil_chan ->
                   In ev (trace (signal_arrives signals
                                   (mkState m b sr cl md tr))) ->
                   In ev tr
                   \/ is_outside ev = false
                   \/ (ev = EvSignal /\ TSignal = TSignal /\ signals <> nil_chan)
                   \/ (exists e, ev = EvServeReturn e /\ TSignal = TServe e)).
    { intros Hn H. unfold signal_arrives in H. simpl in H.
      destruct m; simpl in H;
        try match type of H with context [if ?c then _ else _] => destruct c end;
        simpl in H; rewrite <- ?app_assoc in H;
        apply (Hext _ H); simpl; intros x Hx;
        repeat (destruct Hx as [<- | Hx];
                [first [left; reflexivity | right; left; auto]|]);
        contradiction. }
    destruct signals; [left; exact Hin | |]; apply Harr; auto; discriminate.
  - unfold serve_step in Hin. simpl in Hin.
    destruct b; simpl in Hin; auto.
    destruct m; simpl in Hin;
      try match type of Hin with context [if ?c then _ else _] => destruct c end;
      simpl in Hin; rewrite <- ?app_assoc in Hin;
      apply (Hext _ Hin); simpl; intros x Hx;
      repeat (destruct Hx as [<- | Hx];
              [first [left; reflexivity | right; right; eauto]|]);
      contradiction.
Qed.

(** A signal in the trace was sent by a tick of the schedule, on a channel
    that is not nil; so was a return of Serve. *)
Lemma outside_from_ticks (sched : list Tick) (ev : Event) :
  In ev (trace (run_ sched)) ->
  is_outside ev = true ->
  (ev = EvSignal /\ In TSignal sched /\ signals <> nil_chan)
  \/ (exists e, ev = EvServeReturn e /\ In (TServe e) sched).
Proof.
  induction sched as [|t sched IH] using rev_ind; intros Hin Hout.
  - destruct Hin.
  - assert (E : run_ (sched ++ [t]) = step w signals (run_ sched) t)
      by (unfold run; rewrite exec_app; reflexivity).
    rewrite E in Hin. apply step_adds in Hin.
    destruct Hin as [Hin | [Hown | [(-> & -> & Hn) | (e & -> & ->)]]].
    + destruct (IH Hin Hout) as [(-> & Hs & Hn) | (e & -> & Hs)].
      * left. repeat split; auto. apply in_or_app. auto.
      * right. exists e. split; auto. apply in_or_app. auto.
    + rewrite Hown in Hout. discriminate Hout.
    + left. repeat split; auto. apply in_or_app. right. left. reflexivity.
    + right. exists e. split; auto. apply in_or_app. right. left. reflexivity.
Qed.

(** The events of Run's goroutine in a trace are those of its point. *)
Lemma own_in_trace (p : Point) (st : State) (ev : Event) :
  at_pt p st -> is_outside ev = false ->
  (In ev (trace st) <-> In ev (own_at s ready w p)).
Proof.
  intros (_ & Hown & _) Hev. rewrite <- Hown. split.
  - apply In_own_events. exact Hev.
  - apply own_events_In.
Qed.

Lemma count_at (p : Point) (st : State) (f : Event -> bool) :
  at_pt p st -> (forall ev, f ev = true -> is_outside ev = false) ->
  count f (trace st) = count f (own_at s ready w p).
Proof.
  intros (_ & Hown & _) Hf. rewrite <- Hown. apply count_own_events. exact Hf.
Qed.

Ltac own_sort :=
  let ev := fresh "ev" in
  let H := fresh "H" in
  intros ev H; destruct ev; try discriminate H; reflexivity.

(** X10. Run acts on what it was given and on what it made itself: it listens
    on its own address, calls its own registrar with the server it has
    just made and its own handler, starts Serve of that server on that
    listener, closes no channel but ready, stops no server but that one,
    and writes no log line. *)
Theorem Run_acts_on_its_own_arguments (sched : list Tick) (ev : Event) :
  In ev (trace (run_ sched)) ->
  match ev with
  | EvLog _ => False
  | EvListen network address =>
      network = "tcp"%string /\ address = listenAddress s
  | EvNewServer opts => opts = server_options s
  | EvCall fn args =>
      fn = ValueOf (serverRegistrar s)
      /\ args = [ValueOf_Server (the_server s w); ValueOf (handler s)]
  | EvMakeChan c => c = the_errCh
  | EvGo g => g = serve_into (the_server s w) (the_listener w) the_errCh
  | EvClose c => c = ready
  | EvGracefulStop srv => srv = the_server s w
  | EvPanic v => main (run_ sched) = Panicked v
  | EvReturn x => main (run_ sched) = Returned x
  | _ => True
  end.
Proof.
  intro Hin. destruct (run_point_path w s signals ready closed0 sched) as (p & H & _ & _).
  pose proof H as (Hmain & _).
  destruct ev; try exact I;
    try (match type of Hin with In ?e _ =>
           apply (proj1 (@own_in_trace _ _ e H eq_refl)) in Hin end;
         destruct p; simpl in Hin, Hmain;
         repeat (destruct Hin as [Hin | Hin];
                 [try discriminate Hin; inversion Hin; subst; auto|]);
         try contradiction; fail).
Qed.

(** A select completes only with what came from outside: a signal that a
    tick of the schedule brought (or a signals channel that is closed), or
    the return of Serve that a tick brought. *)
Lemma selected_from_tick (sched : list Tick) (r : Selected) :
  In (EvSelected r) (trace (run_ sched)) ->
  match r with
  | recv_signals =>
      (In EvSignal (trace (run_ sched)) /\ In TSignal sched
       /\ signals <> nil_chan)
      \/ signals_closed signals ready closed0 = true
  | recv_errCh e =>
      In (EvServeReturn e) (trace (run_ sched)) /\ In (TServe e) sched
  end.
Proof.
  intro Hin. destruct (run_point_path w s signals ready closed0 sched) as (p & H & _ & _).
  destruct H as (_ & _ & _ & _ & _ & _ & _ & _ & _ & Hsel).
  apply in_split in Hin. destruct Hin as (pre & post & Hsplit).
  pose proof (Hsel _ _ _ Hsplit) as Hok.
  destruct r as [|e]; simpl in Hok.
  - destruct Hok as [[Hs | Hc] _]; [left | right; exact Hc].
    assert (Hs' : In EvSignal (trace (run_ sched)))
      by (rewrite Hsplit; apply in_or_app; auto).
    destruct (@outside_from_ticks sched EvSignal Hs' eq_refl)
      as [(_ & Ht & Hn) | (e & He & _)]; [auto | discriminate He].
  - destruct Hok as [Hs _].
    assert (Hs' : In (EvServeReturn e) (trace (run_ sched))).
    { rewrite Hsplit. apply in_or_app. left. apply In_serve_returns.
      rewrite Hs. left. reflexivity. }
    split; [exact Hs'|].
    destruct (@outside_from_ticks sched (EvServeReturn e) Hs' eq_refl)
      as [(He & _) | (e' & He & Ht)]; [discriminate He|].
    inversion He. subst e'. exact Ht.
Qed.

Lemma selected_at (p : Point) (st : State) (r : Selected) :
  at_pt p st -> p = AtStop r \/ p = AtReturn r \/ p = Done r ->
  In (EvSelected r) (trace st).
Proof.
  intros H Hp.
  apply (proj2 (@own_in_trace _ _ (EvSelected r) H eq_refl)).
  destruct Hp as [-> | [-> | ->]]; simpl; tauto.
Qed.

(** X3. Run returns only for a cause.  What it returns is the error of the
    bind; or nil, and then a signal had come on a signals channel that is
    not nil, or the signals channel is closed; or what Serve has returned,
    and then Serve has returned it and the serving goroutine has delivered
    it and ended.  So Run does not return while the listener is bound, no
    signal comes, the signals channel is open and Serve goes on, and a nil
    signals channel leaves the return of Serve as the only end. *)
Theorem Run_returns_only_for_a_cause (sched : list Tick) (x : error) :
  main (run_ sched) = Returned x ->
  (exists e, snd (listen_result w) = Some e /\ x = Some e)
  \/ (snd (listen_result w) = None
      /\ registrar_returns s w
      /\ ready_open ready closed0
      /\ ((x = None
           /\ ((In EvSignal (trace (run_ sched)) /\ In TSignal sched
                /\ signals <> nil_chan)
               \/ signals_closed signals ready closed0 = true))
          \/ (In (EvServeReturn x) (trace (run_ sched))
              /\ In (TServe x) sched
              /\ bg (run_ sched) = Delivered))).
Proof.
  intro Hret. destruct (run_point_path w s signals ready closed0 sched) as (p & H & Hp & _).
  pose proof H as (Hmain & _ & Hlis & Hbg & _).
  rewrite Hmain in Hret.
  destruct p; simpl in Hret; try discriminate Hret;
    inversion Hret; subst x; simpl in Hlis, Hp, Hbg.
  - left. eauto.
  - right. destruct Hp as [Hreg Hopen]. repeat (split; [assumption|]).
    assert (Hin : In (EvSelected r) (trace (run_ sched)))
      by (apply (selected_at H); auto).
    apply selected_from_tick in Hin. destruct r; simpl.
    + left. split; [reflexivity | exact Hin].
    + right. destruct Hin as [H1 H2]. auto.
Qed.

(** X4. Run waits.  When the listener is bound, the registrar returns, ready
    can be closed and the signals channel is not closed, then as long as no
    signal is sent (or the signals channel is nil) and Serve does not
    return, Run's goroutine, seven steps on, is blocked in the select and
    stays there: ready is closed, the serving goroutine is in Serve, and
    the server has not been stopped. *)
Theorem Run_blocks_until_a_signal_or_a_return_of_Serve (sched : list Tick) :
  snd (listen_result w) = None ->
  registrar_returns s w ->
  ready_open ready closed0 ->
  signals_closed signals ready closed0 = false ->
  (~ In TSignal sched \/ signals = nil_chan) ->
  (forall e, ~ In (TServe e) sched) ->
  7 <= main_ticks sched ->
  main (run_ sched) = Parked signals the_errCh (rest_selected (the_server s w))
  /\ bg (run_ sched) = InServe the_errCh
  /\ closed (run_ sched) = ready :: closed0
  /\ In (the_close ready) (trace (run_ sched))
  /\ count is_graceful_stop (trace (run_ sched)) = 0
  /\ count is_return (trace (run_ sched)) = 0.
Proof.
  intros Hl Hreg Hopen Hnc Hnosig Hnoserve Hn.
  destruct (run_point_path w s signals ready closed0 sched) as (p & H & Hp & Hd).
  assert (Hsel : forall r, In (EvSelected r) (trace (run_ sched)) -> False).
  { intros r Hin. apply selected_from_tick in Hin. destruct r.
    - destruct Hin as [(_ & Ht & Hnn) | Hc]; [tauto | congruence].
    - destruct Hin as [_ Ht]. exact (Hnoserve _ Ht). }
  pose proof H as (Hmain & _ & Hlis & Hbg & Hcl & _).
  destruct p;
    try (specialize (Hd _ eq_refl); lia);
    try (exfalso; apply (Hsel r); apply (selected_at H); auto; fail);
    simpl in Hlis, Hp, Hbg, Hmain, Hcl.
  - congruence.
  - destruct Hbg as [Hbg _]. repeat split; try assumption.
    + apply (proj2 (@own_in_trace _ _ (the_close ready) H eq_refl)).
      simpl; tauto.
    + rewrite (@count_at _ _ is_graceful_stop H); [reflexivity | own_sort].
    + rewrite (@count_at _ _ is_return H); [reflexivity | own_sort].
  - destruct Hreg as [Hc _]. rewrite Hc in Hp. discriminate Hp.
  - destruct Hreg as [_ [rs Hc]]. destruct Hp. congruence.
  - destruct Hopen as [Hnn Hex].
    destruct Hp as (_ & [[Hr _] | (_ & Hr & _)]); congruence.
Qed.

(** X6. Run panics in two places only, both after the listener is bound and
    the server made: in the call of the registrar (the reflect call
    refuses the value, before anything is called, or a panic comes out of
    the registrar), and then nothing is served; or in the close of a ready
    channel that is nil or closed already, and then the serving goroutine
    has been started.  In no case has Run closed ready, entered the select
    or stopped the server. *)
Theorem Run_panics_only_in_the_call_or_the_close (sched : list Tick)
    (v : PanicValue) :
  main (run_ sched) = Panicked v ->
  snd (listen_result w) = None
  /\ In (the_listen s) (trace (run_ sched))
  /\ In (the_new_server s) (trace (run_ sched))
  /\ closed (run_ sched) = closed0
  /\ ~ In EvWait (trace (run_ sched))
  /\ count is_graceful_stop (trace (run_ sched)) = 0
  /\ ((the_Call s w = Panic v
       /\ count is_call (trace (run_ sched)) = 0
       /\ bg (run_ sched) = NotStarted)
      \/ (registrar_called s w
          /\ call_result w = inl v
          /\ In (the_call s w) (trace (run_ sched))
          /\ bg (run_ sched) = NotStarted)
      \/ (registrar_returns s w
          /\ In (the_go s w) (trace (run_ sched))
          /\ bg (run_ sched) <> NotStarted
          /\ ((ready = nil_chan /\ v = RuntimePanic "close of nil channel")
              \/ (ready <> nil_chan
                  /\ existsb (chan_eqb ready) closed0 = true
                  /\ v = RuntimePanic "close of closed channel")))).
Proof.
  intro Hpan. destruct (run_point_path w s signals ready closed0 sched) as (p & H & Hp & _).
  pose proof H as (Hmain & _ & Hlis & Hbg & Hcl & _).
  rewrite Hmain in Hpan.
  assert (Hin : forall ev, is_outside ev = false ->
                  In ev (own_at s ready w p) -> In ev (trace (run_ sched))).
  { intros ev Hev. apply (proj2 (@own_in_trace _ _ ev H Hev)). }
  assert (Hnot : forall ev, is_outside ev = false ->
                   ~ In ev (own_at s ready w p) -> ~ In ev (trace (run_ sched))).
  { intros ev Hev Hn Hi. apply Hn. apply (proj1 (@own_in_trace _ _ ev H Hev)).
    exact Hi. }
  assert (Hstop : count is_graceful_stop (trace (run_ sched))
                  = count is_graceful_stop (own_at s ready w p))
    by (apply (@count_at _ _ is_graceful_stop H); own_sort).
  assert (Hcall : count is_call (trace (run_ sched))
                  = count is_call (own_at s ready w p))
    by (apply (@count_at _ _ is_call H); own_sort).
  destruct p; simpl in Hpan; try discriminate Hpan;
    inversion Hpan; subst v0; simpl in Hlis, Hp, Hbg, Hcl;
    (split; [exact Hlis|]);
    (split; [apply Hin; [reflexivity | simpl; tauto]|]);
    (split; [apply Hin; [reflexivity | simpl; tauto]|]);
    (split; [exact Hcl|]);
    (split; [apply Hnot; [reflexivity|]; simpl; intro F;
             repeat (destruct F as [F | F]; [discriminate F|]);
             contradiction|]);
    (split; [rewrite Hstop; reflexivity|]).
  - left. repeat split; auto.
  - right; left. destruct Hp as [Hc Hr]. repeat split; auto.
    apply Hin; [reflexivity | simpl; tauto].
  - right; right. destruct Hp as [Hreg Hr].
    split; [exact Hreg|]. split; [apply Hin; [reflexivity | simpl; tauto]|].
    split; [|exact Hr].
    destruct Hbg as [Hb | [e Hb]]; rewrite Hb; discriminate.
Qed.

(** X7. A ready channel that cannot be closed.  When the listener is bound and
    the registrar returns, but ready is nil or closed already, Run's
    goroutine panics with its sixth step, in the close of line 94: after
    the serving goroutine was started, which nothing stops then. *)
Theorem Run_unusable_ready_panics_after_serving_started (sched : list Tick) :
  snd (listen_result w) = None ->
  registrar_returns s w ->
  ready = nil_chan \/ existsb (chan_eqb ready) closed0 = true ->
  6 <= main_ticks sched ->
  main (run_ sched)
  = Panicked (RuntimePanic match ready with
                           | nil_chan => "close of nil channel"
                           | _ => "close of closed channel"
                           end)
  /\ In (the_go s w) (trace (run_ sched))
  /\ bg (run_ sched) <> NotStarted
  /\ count is_graceful_stop (trace (run_ sched)) = 0
  /\ count is_return (trace (run_ sched)) = 0.
Proof.
  intros Hl Hreg Hbad Hn.
  destruct (run_point_path w s signals ready closed0 sched) as (p & H & Hp & Hd).
  assert (Hnotopen : ~ ready_open ready closed0).
  { intros [Hnn Hex]. destruct Hbad as [Hb | Hb]; congruence. }
  pose proof H as (Hmain & _ & Hlis & Hbg & _).
  destruct p;
    try (specialize (Hd _ eq_refl); lia);
    simpl in Hlis, Hp, Hbg, Hmain;
    try (exfalso; apply Hnotopen; apply Hp; fail).
  - congruence.
  - destruct Hreg as [Hc _]. rewrite Hc in Hp. discriminate Hp.
  - destruct Hreg as [_ [rs Hc]]. destruct Hp. congruence.
  - split; [|split; [|split; [|split]]].
    + rewrite Hmain.
      destruct Hp as (_ & [[Hr ->] | (Hr & _ & ->)]).
      * rewrite Hr. reflexivity.
      * destruct ready; [congruence | reflexivity | reflexivity].
    + apply (proj2 (@own_in_trace _ _ (the_go s w) H eq_refl)). simpl; tauto.
    + destruct Hbg as [Hb | [e Hb]]; rewrite Hb; discriminate.
    + rewrite (@count_at _ _ is_graceful_stop H); [reflexivity | own_sort].
    + rewrite (@count_at _ _ is_return H); [reflexivity | own_sort].
Qed.

(** A registrar that is a nil function: the reflect call of line 87
    panics, with the third step of Run's goroutine, when the listener is
    bound and the server made.  Nothing is called and nothing served. *)
Lemma nil_function_panics_in_Call (sched : list Tick) (t : rtype) :
  serverRegistrar s = box t 0 ->
  Kind_of t = Func ->
  snd (listen_result w) = None ->
  3 <= main_ticks sched ->
  main (run_ sched)
  = Panicked (ReflectPanic "reflect.Value.Call: call of nil function")
  /\ In (the_listen s) (trace (run_ sched))
  /\ In (the_new_server s) (trace (run_ sched))
  /\ count is_call (trace (run_ sched)) = 0
  /\ count is_go (trace (run_ sched)) = 0
  /\ closed (run_ sched) = closed0.
Proof.
  intros Hs Hk Hl Hn.
  assert (Hc : the_Call s w
               = Panic (ReflectPanic "reflect.Value.Call: call of nil function")).
  { unfold the_Call. rewrite Hs. simpl. rewrite Hk. reflexivity. }
  destruct (run_point_path w s signals ready closed0 sched) as (p & H & Hp & Hd).
  pose proof H as (Hmain & _ & Hlis & _ & Hcl & _).
  assert (Hno : ~ registrar_called s w).
  { unfold registrar_called. rewrite Hc. discriminate. }
  destruct p;
    try (specialize (Hd _ eq_refl); lia);
    simpl in Hlis, Hp, Hmain, Hcl;
    try (exfalso; apply Hno; apply Hp; fail).
  - congruence.
  - rewrite Hc in Hp. inversion Hp. subst v.
    split; [exact Hmain|]. split; [|split; [|split; [|split]]].
    + apply (proj2 (@own_in_trace _ _ (the_listen s) H eq_refl)). simpl; tauto.
    + apply (proj2 (@own_in_trace _ _ (the_new_server s) H eq_refl)).
      simpl; tauto.
    + rewrite (@count_at _ _ is_call H); [reflexivity | own_sort].
    + rewrite (@count_at _ _ is_go H); [reflexivity | own_sort].
    + exact Hcl.
Qed.

(** X2. When the select has completed with the receive from errCh, the send of
    the serving goroutine has completed with it: that goroutine has ended,
    Serve returned once, with the error received, and this stays so in
    every continuation of the run. *)
Theorem Run_error_received_ends_the_sender (sched more : list Tick) (e : error) :
  In (EvSelected (recv_errCh e)) (trace (run_ sched)) ->
  bg (run_ (sched ++ more)) = Delivered
  /\ serve_returns (trace (run_ (sched ++ more))) = [e]
  /\ count is_received_err (trace (run_ (sched ++ more))) = 1.
Proof.
  intro Hin.
  assert (Hin' : In (EvSelected (recv_errCh e)) (trace (run_ (sched ++ more)))).
  { destruct (run_trace_grows w s signals ready closed0 sched more) as [ext E].
    rewrite E. apply in_or_app. left. exact Hin. }
  destruct (run_point_path w s signals ready closed0 (sched ++ more)) as (p & H & _ & _).
  pose proof (point_of_selected _ H Hin') as Hp.
  pose proof H as (_ & _ & _ & Hbg & _ & _ & _ & _ & Hbt & Hsel).
  assert (Hb : bg (run_ (sched ++ more)) = Delivered)
    by (destruct Hp as [-> | [-> | ->]]; exact Hbg).
  split; [exact Hb|]. split.
  - unfold bg_trace in Hbt. rewrite Hb in Hbt. destruct Hbt as [e' He'].
    apply in_split in Hin'. destruct Hin' as (pre & post & Hsplit).
    destruct (Hsel _ _ _ Hsplit) as [Hs _].
    assert (E : serve_returns (trace (run_ (sched ++ more)))
                = e :: serve_returns post)
      by (rewrite Hsplit, serve_returns_app, Hs; reflexivity).
    rewrite E in He' |- *. inversion He'. reflexivity.
  - rewrite (@count_at _ _ is_received_err H); [|own_sort].
    destruct Hp as [-> | [-> | ->]]; reflexivity.
Qed.

(** X11. Run does each of its things once at most, in all it ever does: one
    listen, one server, one call of the registrar, one channel, one
    goroutine, one close, one select, one return. *)
Theorem Run_does_nothing_twice (sched : list Tick) :
  count is_listen (trace (run_ sched)) <= 1
  /\ count is_new_server (trace (run_ sched)) <= 1
  /\ count is_call (trace (run_ sched)) <= 1
  /\ count is_go (trace (run_ sched)) <= 1
  /\ count is_close (trace (run_ sched)) <= 1
  /\ count (fun ev => match ev with EvMakeChan _ => true | _ => false end)
       (trace (run_ sched)) <= 1
  /\ count (fun ev => match ev with EvWait => true | _ => false end)
       (trace (run_ sched)) <= 1
  /\ count (fun ev => match ev with EvPanic _ => true | _ => false end)
       (trace (run_ sched))
     + count is_return (trace (run_ sched)) <= 1.
Proof.
  destruct (run_point_path w s signals ready closed0 sched) as (p & H & _ & _).
  repeat match goal with
  | |- context [count ?f (trace (run_ sched))] =>
      rewrite (@count_at _ _ f H); [|own_sort]
  end.
  destruct p; unfold count; simpl; lia.
Qed.

Lemma armed_app (tr ext : list Event) : armed tr -> armed (tr ++ ext).
Proof.
  intros [Hs | Hr]; [left; apply in_or_app; auto|].
  right. rewrite serve_returns_app. intro E. apply app_eq_nil in E.
  destruct E as [E _]. exact (Hr E).
Qed.

Lemma armed_step (st : State) (t : Tick) :
  armed (trace st) -> armed (trace (step w signals st t)).
Proof.
  intro Ha. destruct (@step_trace w signals st t) as [ext E]. rewrite E.
  apply armed_app. exact Ha.
Qed.

(** With something there for the select, each step of Run's goroutine
    brings it one step nearer to its return. *)
Lemma main_step_nearer (p : Point) (st : State) (n : nat) :
  snd (listen_result w) = None ->
  registrar_returns s w ->
  ready_open ready closed0 ->
  at_pt p st -> armed (trace st) ->
  steps_left p = Some n ->
  steps_left (next_pt p st) = Some (Nat.pred n).
Proof.
  intros Hl [Hc [rs Hr]] [Hnn Hex] H Ha Hn.
  destruct H as (_ & _ & _ & Hbg & _ & _ & _ & Hsig & Hbt & _).
  destruct p; simpl in Hn; try discriminate Hn; inversion Hn; subst n; simpl.
  - rewrite Hl. reflexivity.
  - reflexivity.
  - unfold registrar_called in Hc. rewrite Hc, Hr. reflexivity.
  - reflexivity.
  - reflexivity.
  - rewrite Hex. destruct ready; [congruence | reflexivity | reflexivity].
  - simpl in Hbg. unfold bg_trace in Hbt.
    destruct (sig_ready st || signals_closed signals ready closed0) eqn:Es.
    + destruct (bg st); try destruct (select_pick w); reflexivity.
    + apply orb_false_iff in Es. destruct Es as [Es _].
      destruct Ha as [Ha | Ha].
      * apply Hsig in Ha. congruence.
      * destruct Hbg as [Hb | [e Hb]]; rewrite Hb in Hbt |- *.
        -- contradiction.
        -- reflexivity.
  - reflexivity.
  - reflexivity.
  - reflexivity.
Qed.

(** So it returns when it has taken the steps that are left. *)
Lemma returns_after_steps_left (more : list Tick) :
  snd (listen_result w) = None ->
  registrar_returns s w ->
  ready_open ready closed0 ->
  forall (st : State) (p : Point) (n : nat),
    at_pt p st -> armed (trace st) ->
    steps_left p = Some n -> n <= main_ticks more ->
    exists r, at_pt (Done r) (exec w signals more st).
Proof.
  intros Hl Hreg Hopen.
  induction more as [|t more IH]; intros st p n H Ha Hn Hle.
  - unfold main_ticks in Hle. simpl in Hle. assert (n = 0) by lia. subst n.
    destruct p; simpl in Hn; try discriminate Hn. exists r. exact H.
  - simpl.
    pose proof (@step_after w s signals ready closed0 t p st H) as H'.
    pose proof (@armed_step st t Ha) as Ha'.
    destruct t.
    + apply (IH _ _ (Nat.pred n) H' Ha').
      * apply main_step_nearer; assumption.
      * unfold main_ticks in Hle |- *. simpl in Hle. lia.
    + apply (IH _ _ n H' Ha').
      * destruct p; simpl in Hn |- *; try discriminate Hn; exact Hn.
      * unfold main_ticks in Hle |- *. simpl in Hle. exact Hle.
    + apply (IH _ _ n H' Ha').
      * destruct p; simpl in Hn |- *; try discriminate Hn; exact Hn.
      * unfold main_ticks in Hle |- *. simpl in Hle. exact Hle.
Qed.

Lemma signal_in_trace (st : State) :
  signals <> nil_chan -> In EvSignal (trace (signal_step signals st)).
Proof.
  intro Hn. unfold signal_step.
  assert (Ha : In EvSignal (trace (signal_arrives signals st))).
  { unfold signal_arrives. destruct st as [m b sr cl md tr]. simpl.
    destruct m; simpl;
      try match goal with |- context [if ?c then _ else _] => destruct c end;
      simpl; rewrite <- ?app_assoc; apply in_or_app; right; left; reflexivity. }
  destruct signals; [congruence | exact Ha | exact Ha].
Qed.

(** X5. Run ends.  When the listener is bound, the registrar returns and ready
    can be closed, a signal on a signals channel that is not nil, or a
    return of Serve once the serving goroutine runs, lets Run return: it
    has returned when its goroutine has taken nine steps in all, two of
    them after that event; and it has stopped the server, once. *)
Theorem Run_returns_after_a_signal_or_a_return_of_Serve
    (pre post : list Tick) (t : Tick) :
  snd (listen_result w) = None ->
  registrar_returns s w ->
  ready_open ready closed0 ->
  match t with
  | TMain => False
  | TSignal => signals <> nil_chan
  | TServe _ => 5 <= main_ticks pre
  end ->
  9 <= main_ticks (pre ++ t :: post) ->
  2 <= main_ticks post ->
  exists x,
    main (run_ (pre ++ t :: post)) = Returned x
    /\ In (EvReturn x) (trace (run_ (pre ++ t :: post)))
    /\ count is_graceful_stop (trace (run_ (pre ++ t :: post))) = 1
    /\ count is_close (trace (run_ (pre ++ t :: post))) = 1.
Proof.
  intros Hl Hreg Hopen Ht Hn Hpost.
  assert (Done_ok : forall r st, at_pt (Done r) st ->
            main st = Returned (err_of r)
            /\ In (EvReturn (err_of r)) (trace st)
            /\ count is_graceful_stop (trace st) = 1
            /\ count is_close (trace st) = 1).
  { intros r st H. pose proof H as (Hmain & _).
    split; [exact Hmain|]. split; [|split].
    - apply (proj2 (@own_in_trace _ _ (EvReturn (err_of r)) H eq_refl)).
      simpl; tauto.
    - rewrite (@count_at _ _ is_graceful_stop H); [reflexivity | own_sort].
    - rewrite (@count_at _ _ is_close H); [reflexivity | own_sort]. }
  assert (E : run_ (pre ++ t :: post)
              = exec w signals post (step w signals (run_ pre) t)).
  { unfold run. rewrite exec_app. reflexivity. }
  rewrite E.
  destruct (run_point_path w s signals ready closed0 pre) as (p & H & Hp & Hd).
  pose proof (@step_after w s signals ready closed0 t p _ H) as H'.
  rewrite main_ticks_app in Hn.
  assert (Hm : main_ticks (t :: post) = main_ticks post).
  { destruct t; [destruct Ht | reflexivity | reflexivity]. }
  rewrite Hm in Hn.
  assert (Hgo : forall n,
            armed (trace (step w signals (run_ pre) t)) ->
            steps_left (after_pt t p (run_ pre)) = Some n ->
            n <= main_ticks post ->
            exists x,
              main (exec w signals post (step w signals (run_ pre) t)) = Returned x
              /\ In (EvReturn x)
                   (trace (exec w signals post (step w signals (run_ pre) t)))
              /\ count is_graceful_stop
                   (trace (exec w signals post (step w signals (run_ pre) t))) = 1
              /\ count is_close
                   (trace (exec w signals post (step w signals (run_ pre) t))) = 1).
  { intros n Ha Hs Hle.
    destruct (@returns_after_steps_left post Hl Hreg Hopen _ _ n H' Ha Hs Hle)
      as [r Hr].
    exists (err_of r). apply Done_ok. exact Hr. }
  assert (Harm : armed (trace (step w signals (run_ pre) t))
                 \/ (exists n, depth p = Some n /\ n < 5
                               /\ exists e, t = TServe e)).
  { destruct t as [| |e]; [destruct Ht | |].
    - left. left. simpl. apply signal_in_trace. exact Ht.
    - pose proof H as (_ & _ & _ & Hbg & _ & _ & _ & _ & Hbt & _).
      unfold bg_trace in Hbt.
      assert (Hserve : bg (run_ pre) = InServe the_errCh ->
                armed (trace (step w signals (run_ pre) (TServe e)))).
      { intro Hb. right. simpl. unfold serve_step. rewrite Hb.
        destruct (run_ pre) as [m b sr cl md tr]. simpl.
        destruct m; simpl;
          try match goal with |- context [if ?c then _ else _] => destruct c end;
          simpl; rewrite <- ?app_assoc, serve_returns_app; simpl;
          intro F; apply app_eq_nil in F; destruct F as [_ F]; discriminate F. }
      assert (Hsent : (exists e', bg (run_ pre) = Sending the_errCh e') ->
                armed (trace (step w signals (run_ pre) (TServe e)))).
      { intros [e' Hb]. apply armed_step. right. rewrite Hb in Hbt.
        rewrite Hbt. discriminate. }
      assert (Hdel : bg (run_ pre) = Delivered ->
                armed (trace (step w signals (run_ pre) (TServe e)))).
      { intro Hb. apply armed_step. right. rewrite Hb in Hbt.
        destruct Hbt as [e' Hbt]. rewrite Hbt. discriminate. }
      destruct p; simpl in Hbg;
        try (right; eexists; split; [reflexivity|]; split; [lia | eauto]; fail);
        try (left; destruct Hbg; auto; fail);
        try (left; destruct r; [destruct Hbg; auto | auto]; fail).
      + simpl in Hp. destruct H as (_ & _ & Hlis & _). simpl in Hlis. congruence.
      + simpl in Hp. destruct Hreg as [Hc _]. unfold registrar_called in Hc.
        rewrite Hc in Hp. discriminate Hp.
      + simpl in Hp. destruct Hreg as [_ [rs Hc]]. destruct Hp. congruence. }
  destruct Harm as [Ha | (n & Hdn & Hlt & e & ->)].
  2:{ specialize (Hd _ Hdn). simpl in Ht. lia. }
  pose proof H as (_ & _ & Hlis & _).
  destruct p; simpl in Hlis, Hp;
    try congruence;
    try (specialize (Hd _ eq_refl);
         destruct t; [destruct Ht | |]; simpl;
         (eapply Hgo; [exact Ha | reflexivity | lia]); fail);
    try (destruct t; [destruct Ht | |]; simpl;
         (eapply Hgo; [exact Ha | reflexivity | lia]); fail).
  - destruct t; [destruct Ht | |]; simpl in Hgo.
    + destruct signals; [congruence | |];
        (eapply Hgo; [exact Ha | reflexivity | lia]).
    + eapply Hgo; [exact Ha | reflexivity | lia].
  - destruct Hreg as [Hc _]. unfold registrar_called in Hc.
    rewrite Hc in Hp. discriminate Hp.
  - destruct Hreg as [_ [rs Hc]]. destruct Hp. congruence.
  - destruct Hopen as [Hnn Hex].
    destruct Hp as (_ & [[Hr _] | (_ & Hr & _)]); congruence.
Qed.

(** X8. Run does not recover.  When the listener is bound and the registrar,
    once called, panics, that panic is the end of Run's goroutine, with its
    third step: the registrar was called once, no goroutine is started,
    ready is not closed, the server is not stopped. *)
Theorem Run_does_not_recover_a_panic_of_the_registrar (sched : list Tick)
    (v : PanicValue) :
  snd (listen_result w) = None ->
  registrar_called s w ->
  call_result w = inl v ->
  3 <= main_ticks sched ->
  main (run_ sched) = Panicked v
  /\ count is_call (trace (run_ sched)) = 1
  /\ count is_go (trace (run_ sched)) = 0
  /\ closed (run_ sched) = closed0
  /\ count is_graceful_stop (trace (run_ sched)) = 0.
Proof.
  intros Hl Hc Hr Hn.
  destruct (run_point_path w s signals ready closed0 sched) as (p & H & Hp & Hd).
  pose proof H as (Hmain & _ & Hlis & _ & Hcl & _).
  assert (Hno : ~ registrar_returns s w).
  { intros [_ [rs Hrs]]. congruence. }
  destruct p;
    try (specialize (Hd _ eq_refl); lia);
    simpl in Hlis, Hp, Hmain, Hcl;
    try (exfalso; apply Hno; apply Hp; fail).
  - congruence.
  - unfold registrar_called in Hc. rewrite Hc in Hp. discriminate Hp.
  - destruct Hp as [_ Hv]. rewrite Hr in Hv. inversion Hv. subst v0.
    split; [exact Hmain|]. split; [|split; [|split]].
    + rewrite (@count_at _ _ is_call H); [reflexivity | own_sort].
    + rewrite (@count_at _ _ is_go H); [reflexivity | own_sort].
    + exact Hcl.
    + rewrite (@count_at _ _ is_graceful_stop H); [reflexivity | own_sort].
Qed.


End Steps.

(* ================================================================= *)
(** ** The constructor: how it ends, and what it does not look at *)

Section Outcomes.

Variable uncommon : rtype -> list Method.

#[local] Opaque rtype_eqb.

(** X12. The constructor ends in one of four ways, and writes to the log only
    what it panics with.  It returns the struct, with nothing logged.  Or
    reflect panics, with nothing logged: in [Value.Type], when the handler
    or the registrar is nil, or in [Type.Implements], when the registrar
    has passed the first three checks and its second parameter is not an
    interface.  Or one check fails: then one line is logged, and the panic
    carries that line.  The checks before them keep [NumIn], [NumOut] and
    [In] from panicking. *)
Theorem NewGRPCServer_logs_what_it_panics_with
    (listenAddress : string) (tlsConfig : tls_Config_ptr)
    (handler registrar : any) :
  let p := NewGRPCServer uncommon listenAddress tlsConfig handler registrar in
  offline p = Some ([], inr (mkRunner listenAddress handler registrar tlsConfig))
  \/ (offline p = Some ([], inl (ValueError "reflect.Value.Type" Invalid))
      /\ (registrar = nil_any \/ handler = nil_any))
  \/ (offline p
      = Some ([], inl (ReflectPanic
                         "reflect: non-interface type passed to Type.Implements"))
      /\ handler <> nil_any
      /\ exists name in1 variadic word,
           registrar = box (FuncType name [grpc_Server_ptr; in1] [] variadic) word
           /\ Kind_of in1 <> Interface)
  \/ (exists m, offline p = Some ([m], inl (LogPanic m))
                /\ handler <> nil_any /\ registrar <> nil_any).
Proof.
  intro p. subst p.
  destruct registrar as [|t wd].
  { right; left. split; [reflexivity | auto]. }
  destruct handler as [|ht hw].
  { right; left. split; [reflexivity | auto]. }
  assert (Hlog : forall o : option (list Message * (PanicValue + grpcServerRunner)),
            (exists m, o = Some ([m], inl (LogPanic m))) ->
            o = Some ([], inr (mkRunner listenAddress (box ht hw) (box t wd) tlsConfig))
            \/ (o = Some ([], inl (ValueError "reflect.Value.Type" Invalid))
                /\ (box t wd = nil_any \/ box ht hw = nil_any))
            \/ (o
                = Some ([], inl (ReflectPanic
                         "reflect: non-interface type passed to Type.Implements"))
                /\ box ht hw <> nil_any
                /\ exists name in1 variadic word,
                     box t wd
                     = box (FuncType name [grpc_Server_ptr; in1] [] variadic) word
                     /\ Kind_of in1 <> Interface)
            \/ (exists m, o = Some ([m], inl (LogPanic m))
                          /\ box ht hw <> nil_any /\ box t wd <> nil_any)).
  { intros o [m Hm]. right; right; right. exists m.
    split; [exact Hm | split; discriminate]. }
  destruct t as [name ins outs v | iname ms | e | k pname].
  2:{ apply Hlog. eexists. reflexivity. }
  2:{ apply Hlog. eexists. reflexivity. }
  2:{ apply Hlog. unfold NewGRPCServer. simpl.
      destruct (Kind_eqb (kind_of_plain k) Func) eqn:E.
      - apply Kind_eqb_eq in E. destruct (kind_of_plain_not_Func _ E).
      - eexists. reflexivity. }
  unfold NewGRPCServer. simpl.
  destruct ins as [|in0 [|in1 [|in2 ins]]]; simpl;
    try (apply Hlog; eexists; reflexivity).
  destruct outs as [|o outs]; simpl;
    [|apply Hlog; eexists; reflexivity].
  destruct (rtype_eqb grpc_Server_ptr in0) eqn:E0; simpl;
    [|apply Hlog; eexists; reflexivity].
  apply rtype_eqb_eq in E0. subst in0.
  unfold Type_Implements.
  destruct (Kind_eqb (Kind_of in1) Interface) eqn:Ek; simpl.
  - destruct (implements uncommon in1 ht); simpl.
    + left. reflexivity.
    + apply Hlog. eexists. reflexivity.
  - right; right; left. split; [reflexivity|]. split; [discriminate|].
    exists name, in1, v, wd. split; [reflexivity|].
    intro F. rewrite F in Ek. discriminate Ek.
Qed.

(** The preconditions speak of the types only: they hold of a registrar
    whatever its word. *)
Lemma preconditions_any_word (handler : any) (t : rtype) (wd wd' : N) :
  preconditions uncommon handler (box t wd) ->
  preconditions uncommon handler (box t wd').
Proof.
  intros (H1 & H2 & H3 & H4). split; [|split; [|split]].
  - destruct H1 as (t0 & w0 & E & Hk). inversion E; subst.
    exists t0, wd'. auto.
  - destruct H2 as (name & ins & outs & v & w0 & E & Hl). inversion E; subst.
    exists name, ins, outs, v, wd'. auto.
  - destruct H3 as (name & ins & outs & v & w0 & E & Hn). inversion E; subst.
    exists name, ins, outs, v, wd'. auto.
  - destruct H4 as (name & ins & outs & v & w0 & ht & hw & iname & ms
                    & E & Eh & Hn & Hall).
    inversion E; subst.
    exists name, ins, outs, v, wd', ht, hw, iname, ms. auto.
Qed.

(** X9. The constructor does not look at the value of the registrar: a nil
    function of a type that meets the preconditions is accepted.  Run then
    binds the listener, makes the server, and panics in the reflect call of
    line 87, with the third step of its goroutine: nothing is called, no
    goroutine started, and ready is not closed. *)
Theorem nil_function_passes_NewGRPCServer_and_panics_in_Run
    (listenAddress : string) (tlsConfig : tls_Config_ptr) (handler : any)
    (t : rtype) (wd : N) (w : World) (signals ready : chan)
    (closed0 : list chan) (sched : list Tick) :
  preconditions uncommon handler (box t wd) ->
  snd (listen_result w) = None ->
  3 <= main_ticks sched ->
  let s := mkRunner listenAddress handler (box t 0) tlsConfig in
  NewGRPCServer uncommon listenAddress tlsConfig handler (box t 0) = Ret s
  /\ main (run w s signals ready closed0 sched)
     = Panicked (ReflectPanic "reflect.Value.Call: call of nil function")
  /\ In (the_listen s) (trace (run w s signals ready closed0 sched))
  /\ In (the_new_server s) (trace (run w s signals ready closed0 sched))
  /\ count is_call (trace (run w s signals ready closed0 sched)) = 0
  /\ count is_go (trace (run w s signals ready closed0 sched)) = 0
  /\ closed (run w s signals ready closed0 sched) = closed0.
Proof.
  intros Hpre Hl Hn s.
  pose proof (@preconditions_any_word handler t wd 0 Hpre) as Hpre0.
  split.
  - destruct (@NewGRPCServer_cases uncommon listenAddress tlsConfig handler (box t 0))
      as [[_ E] | [Hv _]]; [exact E|].
    destruct (violated_not_preconditions Hv Hpre0).
  - destruct Hpre as ((t0 & w0 & E & Hk) & _). inversion E; subst t0 w0.
    apply (@nil_function_panics_in_Call w s signals ready closed0 sched t);
      [reflexivity | exact Hk | exact Hl | exact Hn].
Qed.


End Outcomes.
(* ================================================================= *)
(** ** Runs of the Greeter service that meet the hypotheses *)

Lemma Run_acts_on_its_own_arguments_witness :
  mkValue RegisterGreeterServer 8192 = ValueOf (serverRegistrar greeter_runner)
  /\ [mkValue grpc_Server_ptr 900; mkValue greeter 4096]
     = [ValueOf_Server (the_server greeter_runner world_pick_signals);
        ValueOf (handler greeter_runner)].
Proof.
  refine (@Run_acts_on_its_own_arguments world_pick_signals greeter_runner
            sig_chan ready_chan [] up_to_select
            (EvCall (mkValue RegisterGreeterServer 8192)
               [mkValue grpc_Server_ptr 900; mkValue greeter 4096]) _).
  simpl. tauto.
Defined.

(** The signals channel is closed at the call: the select takes the
    receive from it, and Run returns nil with no signal sent. *)
Lemma Run_returns_only_for_a_cause_witness :
  main (run world_pick_signals greeter_runner sig_chan ready_chan [sig_chan]
          closed_then_return) = Returned None
  /\ ((exists e, snd (listen_result world_pick_signals) = Some e /\ None = Some e)
      \/ (snd (listen_result world_pick_signals) = None
          /\ registrar_returns greeter_runner world_pick_signals
          /\ ready_open ready_chan [sig_chan]
          /\ (((None : error) = None
               /\ ((In EvSignal
                      (trace (run world_pick_signals greeter_runner sig_chan
                                ready_chan [sig_chan] closed_then_return))
                    /\ In TSignal closed_then_return
                    /\ sig_chan <> nil_chan)
                   \/ signals_closed sig_chan ready_chan [sig_chan] = true))
              \/ (In (EvServeReturn None)
                    (trace (run world_pick_signals greeter_runner sig_chan
                              ready_chan [sig_chan] closed_then_return))
                  /\ In (TServe None) closed_then_return
                  /\ bg (run world_pick_signals greeter_runner sig_chan
                           ready_chan [sig_chan] closed_then_return)
                     = Delivered)))).
Proof.
  split; [reflexivity|].
  apply (@Run_returns_only_for_a_cause world_pick_signals greeter_runner
           sig_chan ready_chan [sig_chan] closed_then_return None).
  reflexivity.
Defined.

Lemma Run_blocks_witness :
  main (run world_pick_signals greeter_runner sig_chan ready_chan [] up_to_select)
  = Parked sig_chan the_errCh
      (rest_selected (the_server greeter_runner world_pick_signals)).
Proof.
  refine (proj1 (@Run_blocks_until_a_signal_or_a_return_of_Serve
                   world_pick_signals greeter_runner sig_chan ready_chan []
                   up_to_select _ _ _ _ _ _ _)).
  - reflexivity.
  - split; [reflexivity | exists []; reflexivity].
  - split; [discriminate | reflexivity].
  - reflexivity.
  - left. simpl. intuition discriminate.
  - intros e H. simpl in H. intuition discriminate.
  - unfold main_ticks. simpl. lia.
Defined.

Lemma Run_panics_in_the_close_witness :
  main (run world_pick_signals greeter_runner sig_chan nil_chan [] up_to_close)
  = Panicked (RuntimePanic "close of nil channel")
  /\ count is_graceful_stop
       (trace (run world_pick_signals greeter_runner sig_chan nil_chan []
                 up_to_close)) = 0.
Proof.
  split; [reflexivity|].
  refine (proj1 (proj2 (proj2 (proj2 (proj2 (proj2
            (@Run_panics_only_in_the_call_or_the_close
               world_pick_signals greeter_runner sig_chan nil_chan []
               up_to_close (RuntimePanic "close of nil channel") _))))))).
  reflexivity.
Defined.

Lemma Run_closed_ready_witness :
  main (run world_pick_signals greeter_runner sig_chan ready_chan [ready_chan]
          up_to_close)
  = Panicked (RuntimePanic "close of closed channel").
Proof.
  refine (proj1 (@Run_unusable_ready_panics_after_serving_started
                   world_pick_signals greeter_runner sig_chan ready_chan
                   [ready_chan] up_to_close _ _ _ _)).
  - reflexivity.
  - split; [reflexivity | exists []; reflexivity].
  - right. reflexivity.
  - unfold main_ticks. simpl. lia.
Defined.

Lemma Run_error_received_witness :
  bg (run world_pick_errCh greeter_runner sig_chan ready_chan []
        ((up_to_select ++ [TServe closed_listener]) ++ [TMain; TMain]))
  = Delivered.
Proof.
  refine (proj1 (@Run_error_received_ends_the_sender
                   world_pick_errCh greeter_runner sig_chan ready_chan []
                   (up_to_select ++ [TServe closed_listener]) [TMain; TMain]
                   closed_listener _)).
  simpl. tauto.
Defined.

Lemma Run_returns_after_a_signal_witness :
  exists x,
    main (run world_pick_signals greeter_runner sig_chan ready_chan []
            (up_to_select ++ TSignal :: [TMain; TMain])) = Returned x
    /\ In (EvReturn x)
         (trace (run world_pick_signals greeter_runner sig_chan ready_chan []
                   (up_to_select ++ TSignal :: [TMain; TMain])))
    /\ count is_graceful_stop
         (trace (run world_pick_signals greeter_runner sig_chan ready_chan []
                   (up_to_select ++ TSignal :: [TMain; TMain]))) = 1
    /\ count is_close
         (trace (run world_pick_signals greeter_runner sig_chan ready_chan []
                   (up_to_select ++ TSignal :: [TMain; TMain]))) = 1.
Proof.
  refine (@Run_returns_after_a_signal_or_a_return_of_Serve
            world_pick_signals greeter_runner sig_chan ready_chan []
            up_to_select [TMain; TMain] TSignal _ _ _ _ _ _).
  - reflexivity.
  - split; [reflexivity | exists []; reflexivity].
  - split; [discriminate | reflexivity].
  - discriminate.
  - unfold main_ticks. simpl. lia.
  - unfold main_ticks. simpl. lia.
Defined.

Lemma nil_registrar_witness :
  NewGRPCServer greeter_tables "127.0.0.1:50051" None the_handler nil_registrar
  = Ret (mkRunner "127.0.0.1:50051" the_handler nil_registrar None)
  /\ main (run world_pick_signals
             (mkRunner "127.0.0.1:50051" the_handler nil_registrar None)
             sig_chan ready_chan [] [TMain; TMain; TMain])
     = Panicked (ReflectPanic "reflect.Value.Call: call of nil function").
Proof.
  refine ((fun H => conj (proj1 H) (proj1 (proj2 H)))
            (@nil_function_passes_NewGRPCServer_and_panics_in_Run
               greeter_tables "127.0.0.1:50051" None the_handler
               RegisterGreeterServer 8192 world_pick_signals sig_chan ready_chan
               [] [TMain; TMain; TMain] greeter_meets_preconditions _ _)).
  - reflexivity.
  - unfold main_ticks. simpl. lia.
Defined.

Lemma Run_registrar_panics_witness :
  main (run world_registrar_panics greeter_runner sig_chan ready_chan []
          [TMain; TMain; TMain])
  = Panicked (CalleePanic
                "grpc: Server.RegisterService found duplicate service registration").
Proof.
  refine (proj1 (@Run_does_not_recover_a_panic_of_the_registrar
                   world_registrar_panics greeter_runner sig_chan ready_chan []
                   [TMain; TMain; TMain] _ _ _ _ _)).
  - reflexivity.
  - reflexivity.
  - reflexivity.
  - unfold main_ticks. simpl. lia.
Defined.

